(** * BIP-39 mnemonic codec: a shallow embedding of [bip39_mnemonic.go]

    The Go package converts entropy bytes to a mnemonic sentence and back,
    validates mnemonics and derives seeds.  This development embeds the
    functions of the package as Rocq functions and proves the properties
    the specification states about them.

    Conventions of the embedding:
    - a Go [byte] is an [ascii] (eight bits), a Go [string] and a [[]byte]
      are both [list byte], so [[]byte(s)] and [string(b)] are the identity;
    - a Go [int] is a [Z]; [/] and [%] are [Z.quot] and [Z.rem]; the
      integers of the package are lengths and indices, far from the bounds
      of 64 bits, so no wrap-around is written;
    - a [nil] slice and an empty slice are both the empty list;
    - a Go [error] value is an [option error], [nil] being [None]; a
      function with results [(v, err)] returns the pair;
    - a run-time panic (slice bounds, index out of range) is the [Panic]
      outcome of the [go] monad; functions that slice or index live in it. *)

From Stdlib Require Import ZArith Bool Ascii String List Lia.
Import ListNotations.
Local Open Scope Z_scope.

Ltac Zify.zify_post_hook ::= Z.to_euclidean_division_equations.

(** ** Outcomes of a Go call *)

Inductive go (A : Type) : Type :=
| Return (a : A)
| Panic.
Arguments Return {A} a.
Arguments Panic {A}.

Definition bind {A B : Type} (m : go A) (k : A -> go B) : go B :=
  match m with
  | Return a => k a
  | Panic => Panic
  end.

Notation "x <- m ;; k" := (bind m (fun x => k))
  (at level 61, m at next level, right associativity).
Notation "' pat <- m ;; k" := (bind m (fun x => match x with pat => k end))
  (at level 61, pat pattern, m at next level, right associativity).

(** ** Bytes, strings, slices *)

Definition byte : Type := ascii.
Definition gostring : Type := list byte.

(** The numeric value of a byte, and the conversion [byte(x)] of an
    integer, which keeps the low eight bits. *)
Definition byte_val (b : byte) : Z := Z.of_N (N_of_ascii b).
Definition byte_of_Z (z : Z) : byte := ascii_of_N (Z.to_N (z mod 256)).

Definition len {A : Type} (s : list A) : Z := Z.of_nat (length s).

(** [s[lo:hi]]: panics unless [0 <= lo <= hi <= len(s)]. *)
Definition subslice {A : Type} (s : list A) (lo hi : Z) : go (list A) :=
  if (0 <=? lo) && (lo <=? hi) && (hi <=? len s)
  then Return (firstn (Z.to_nat (hi - lo)) (skipn (Z.to_nat lo) s))
  else Panic.

(** [s[i]]: panics unless [0 <= i < len(s)]. *)
Definition index {A : Type} (s : list A) (i : Z) : go A :=
  if (0 <=? i) && (i <? len s)
  then match nth_error s (Z.to_nat i) with
       | Some a => Return a
       | None => Panic
       end
  else Panic.

Definition byte_eqb (a b : byte) : bool := Ascii.eqb a b.

(** [s == t] on strings. *)
Fixpoint string_eqb (s t : gostring) : bool :=
  match s, t with
  | [], [] => true
  | a :: s', b :: t' => byte_eqb a b && string_eqb s' t'
  | _, _ => false
  end.

(** Three-way comparison of strings, byte by byte; [s >= t] and the other
    comparison operators of Go are read off it. *)
Fixpoint string_compare (s t : gostring) : comparison :=
  match s, t with
  | [], [] => Eq
  | [], _ :: _ => Lt
  | _ :: _, [] => Gt
  | a :: s', b :: t' =>
      match Ascii.compare a b with
      | Eq => string_compare s' t'
      | c => c
      end
  end.

Definition string_ltb (s t : gostring) : bool :=
  match string_compare s t with Lt => true | _ => false end.

Definition string_geb (s t : gostring) : bool := negb (string_ltb s t).

(** The characters the package writes and tests. *)
Definition ch0 : byte := "0"%char.
Definition ch1 : byte := "1"%char.
Definition chSpace : byte := " "%char.
Definition chPlus : byte := "+"%char.
Definition chMinus : byte := "-"%char.

(** Go string literals. *)
Definition str (s : string) : gostring := list_ascii_of_string s.

(** ** Errors *)

(** [strconv.ErrSyntax] and [strconv.ErrRange], the two causes a
    [*strconv.NumError] of [ParseInt] wraps. *)
Inductive NumErr : Type := ErrSyntax | ErrRange.

Inductive error : Type :=
| ErrWordsNum
| ErrInvalidWord
| ErrChecksum
| ErrBinaryString
| InvalidEntropyLength
| NumError (cause : NumErr).

(** ** The standard-library functions the package calls *)

Module strconv.

(** [strconv.ParseUint(s, base, bitSize)] for an explicit base
    [2 <= base <= 10] (no prefixes, no underscores), as a left-to-right
    scan with the accumulator [n].  A byte that is not a digit below
    [base] is a syntax error with value 0; overflow of [bitSize] bits is
    a range error with the largest value. *)
Definition digit (base : Z) (c : byte) : option Z :=
  let d := byte_val c - byte_val ch0 in
  if (0 <=? d) && (d <=? 9) && (d <? base) then Some d else None.

Fixpoint ParseUint_loop (s : gostring) (base maxVal n : Z)
  : Z * option NumErr :=
  match s with
  | [] => (n, None)
  | c :: s' =>
      match digit base c with
      | None => (0, Some ErrSyntax)
      | Some d =>
          if 2 ^ 64 / base + 1 <=? n then (maxVal, Some ErrRange)
          else
            let n1 := n * base + d in
            if (2 ^ 64 <=? n1) || (maxVal <? n1) then (maxVal, Some ErrRange)
            else ParseUint_loop s' base maxVal n1
      end
  end.

Definition ParseUint (s : gostring) (base bitSize : Z) : Z * option NumErr :=
  match s with
  | [] => (0, Some ErrSyntax)
  | _ => ParseUint_loop s base (2 ^ bitSize - 1) 0
  end.

(** [strconv.ParseInt(s, base, bitSize)]: an optional sign, then
    [ParseUint]; the magnitude is checked against [2^(bitSize-1)]. *)
Definition ParseInt (s : gostring) (base bitSize : Z) : Z * option NumErr :=
  match s with
  | [] => (0, Some ErrSyntax)
  | c :: s' =>
      let neg := byte_eqb c chMinus in
      let digits := if byte_eqb c chPlus || neg then s' else s in
      let '(un, err) := ParseUint digits base bitSize in
      match err with
      | Some ErrSyntax => (0, Some ErrSyntax)
      | _ =>
          let cutoff := 2 ^ (bitSize - 1) in
          if negb neg && (cutoff <=? un) then (cutoff - 1, Some ErrRange)
          else if neg && (cutoff <? un) then (- cutoff, Some ErrRange)
          else (if neg then - un else un, None)
      end
  end.

End strconv.

Module fmt.

(** The binary digits of a positive number, most significant first. *)
Fixpoint bits_pos (p : positive) : gostring :=
  match p with
  | xH => [ch1]
  | xO q => bits_pos q ++ [ch0]
  | xI q => bits_pos q ++ [ch1]
  end.

(** The digits of the magnitude of [v]; zero has the one digit [0]. *)
Definition digits (v : Z) : gostring :=
  match v with
  | Z0 => [ch0]
  | Zpos p => bits_pos p
  | Zneg p => bits_pos p
  end.

(** [fmt.Sprintf("%.<prec>b", v)]: the binary digits of [v], padded on
    the left with zeros to at least [prec] digits, after a minus sign
    for a negative [v]; precision 0 and value 0 print nothing. *)
Definition Sprintf_b (prec : Z) (v : Z) : gostring :=
  if (prec =? 0) && (v =? 0) then []
  else
    let ds := digits v in
    let padded := repeat ch0 (Z.to_nat (prec - len ds)) ++ ds in
    if v <? 0 then chMinus :: padded else padded.

End fmt.

Module strings.

(** [strings.Split(s, sep)] for a one-byte separator: the substrings of
    [s] between the occurrences of [sep]; a string without [sep], the
    empty one included, gives one substring. *)
Fixpoint Split (s : gostring) (sep : byte) : list gostring :=
  match s with
  | [] => [[]]
  | c :: s' =>
      if byte_eqb c sep then [] :: Split s' sep
      else match Split s' sep with
           | w :: ws => (c :: w) :: ws
           | [] => [[c]]
           end
  end.

(** [strings.Join(elems, sep)]. *)
Fixpoint Join (elems : list gostring) (sep : gostring) : gostring :=
  match elems with
  | [] => []
  | w :: rest =>
      match rest with
      | [] => w
      | _ :: _ => w ++ sep ++ Join rest sep
      end
  end.

End strings.

Module sort.

(** [sort.Search(n, f)]: the loop [for i < j] halves the interval
    [[i, j)]; the interval shrinks at every turn, so [j - i] turns are
    enough and [fuel] is never exhausted before [i < j] fails
    (lemma [Search_loop_fuel] below). *)
Fixpoint Search_loop (fuel : nat) (f : Z -> go bool) (i j : Z) : go Z :=
  match fuel with
  | O => Return i
  | S fuel' =>
      if i <? j then
        let h := Z.shiftr (i + j) 1 in
        b <- f h ;;
        if negb b then Search_loop fuel' f (h + 1) j
        else Search_loop fuel' f i h
      else Return i
  end.

Definition Search (n : Z) (f : Z -> go bool) : go Z :=
  Search_loop (Z.to_nat n) f 0 n.

(** [sort.SearchStrings(a, x)]: [Search] with the test [a[i] >= x]. *)
Definition SearchStrings (a : list gostring) (x : gostring) : go Z :=
  Search (len a) (fun i => ai <- index a i ;; Return (string_geb ai x)).

End sort.

(** ** The helpers of the package *)

Fixpoint bytesToBinaryString_loop (slice : list byte) (strBuff : gostring)
  : gostring :=
  match slice with
  | [] => strBuff
  | b :: rest =>
      bytesToBinaryString_loop rest (strBuff ++ fmt.Sprintf_b 8 (byte_val b))
  end.

Definition bytesToBinaryString (slice : list byte) : gostring :=
  bytesToBinaryString_loop slice [].

(** The loop [for i := 0; i < len(binStr); i += 8] is entered only when 8
    divides the length, so it runs [len(binStr)/8] times; [iters] counts
    the iterations left. *)
Fixpoint binaryStringToBytes_loop (iters : nat) (binStr : gostring) (i : Z)
  (slice : list byte) : go (list byte * option error) :=
  match iters with
  | O => Return (slice, None)
  | S iters' =>
      byteStrBin <- subslice binStr i (i + 8) ;;
      let '(byteVal, err) := strconv.ParseInt byteStrBin 2 16 in
      match err with
      | Some e => Return ([], Some (NumError e))
      | None =>
          binaryStringToBytes_loop iters' binStr (i + 8)
            (slice ++ [byte_of_Z byteVal])
      end
  end.

Definition binaryStringToBytes (binStr : gostring)
  : go (list byte * option error) :=
  if negb (Z.rem (len binStr) 8 =? 0) then Return ([], Some ErrBinaryString)
  else binaryStringToBytes_loop (Z.to_nat (Z.quot (len binStr) 8)) binStr 0 [].

(** Perform binary search to find a string in a slice; -1 if not found. *)
Definition stringBinarySearch (slice : list gostring) (elem : gostring) : go Z :=
  idx <- sort.SearchStrings slice elem ;;
  if negb (idx =? len slice) then
    w <- index slice idx ;;
    if string_eqb w elem then Return idx else Return (-1)
  else Return (-1).

(** ** The package ([bip39_mnemonic.go])

    [MnemonicFromWordsNum] draws its entropy from [GenerateEntropy], the
    random source of the package, and then calls [MnemonicFromEntropy]; it
    is modelled after the other functions, with the source as a
    parameter. *)

Definition WordsNum12 : Z := 12.
Definition WordsNum15 : Z := 15.
Definition WordsNum18 : Z := 18.
Definition WordsNum21 : Z := 21.
Definition WordsNum24 : Z := 24.

Definition wordBitLen : Z := 11.

Definition seedSaltMod : gostring := str "mnemonic".
Definition seedPbkdf2KeyLen : Z := 64.
Definition seedPbkdf2Round : Z := 2048.

(** [wordsNumMap], a [map[int]bool]; a key that is absent reads [false]. *)
Definition wordsNumMap : list (Z * bool) :=
  [ (WordsNum12, true); (WordsNum15, true); (WordsNum18, true);
    (WordsNum21, true); (WordsNum24, true) ].

Definition map_get (m : list (Z * bool)) (k : Z) : bool :=
  match find (fun kv => fst kv =? k) m with
  | Some kv => snd kv
  | None => false
  end.

Record Mnemonic : Type := { Words : gostring }.

Definition validateWordsNum (wordsNum : Z) : option error :=
  if negb (map_get wordsNumMap wordsNum) then Some ErrWordsNum else None.

(** Modelled from the spec: [validateEntropyBitLen] is declared in the
    entropy generator of the package, which is not among the sources.
    The specification (4.4, Encode, step 1): "Validate entropy bit length
    in {128,160,192,224,256}; else fail with InvalidEntropyLength". *)
Definition validateEntropyBitLen (bitLen : Z) : option error :=
  if (bitLen =? 128) || (bitLen =? 160) || (bitLen =? 192) ||
     (bitLen =? 224) || (bitLen =? 256)
  then None else Some InvalidEntropyLength.

Section bip39.

(** The English word list is a table of the package outside the
    sources; the digest and the key derivation are library functions
    ([crypto/sha256], [golang.org/x/crypto/pbkdf2], [crypto/sha512]). *)
Variable wordsListEn : list gostring.
Variable sha256_Sum256 : list byte -> list byte.
Variable Hash : Type.
Variable sha512_New : Hash.
Variable pbkdf2_Key : list byte -> list byte -> Z -> Z -> Hash -> list byte.

(** Compute checksum of the specified entropy bytes, as a binary string. *)
Definition entropyChecksumBinStr (slice : list byte) : go gostring :=
  let hash := sha256_Sum256 slice in
  let hashStr := bytesToBinaryString hash in
  let chksumBitLen := Z.quot (len slice) 4 in
  subslice hashStr 0 chksumBitLen.

(** The loop [for i := 0; i < mnemonicLen; i++] of
    [MnemonicFromEntropy]; [iters] counts the iterations left. *)
Fixpoint MnemonicFromEntropy_loop (iters : nat) (mnemonicBinStr : gostring)
  (i : Z) (mnemonic : list gostring) : go (list gostring) :=
  match iters with
  | O => Return mnemonic
  | S iters' =>
      wordStrBin <- subslice mnemonicBinStr (i * wordBitLen)
                      ((i + 1) * wordBitLen) ;;
      let '(wordIdx, _) := strconv.ParseInt wordStrBin 2 16 in
      word <- index wordsListEn wordIdx ;;
      MnemonicFromEntropy_loop iters' mnemonicBinStr (i + 1)
        (mnemonic ++ [word])
  end.

(** Generate mnemonic from the specific entropy. *)
Definition MnemonicFromEntropy (entropy : list byte)
  : go (option Mnemonic * option error) :=
  match validateEntropyBitLen (len entropy * 8) with
  | Some err => Return (None, Some err)
  | None =>
      let entropyBinStr := bytesToBinaryString entropy in
      chksumBinStr <- entropyChecksumBinStr entropy ;;
      let mnemonicBinStr := entropyBinStr ++ chksumBinStr in
      let mnemonicLen := Z.quot (len mnemonicBinStr) wordBitLen in
      mnemonic <- MnemonicFromEntropy_loop (Z.to_nat mnemonicLen)
                    mnemonicBinStr 0 [] ;;
      Return (Some {| Words := strings.Join mnemonic [chSpace] |}, None)
  end.

(** Create mnemonic object from a mnemonic string. *)
Definition MnemonicFromString (mnemonic : gostring) : Mnemonic :=
  {| Words := mnemonic |}.

(** The loop [for _, word := range wordsList] of [getBinaryStrings]:
    the buffer on normal exit, the error on the early return. *)
Fixpoint getBinaryStrings_loop (wordsList : list gostring) (strBuf : gostring)
  : go (gostring + error) :=
  match wordsList with
  | [] => Return (inl strBuf)
  | word :: rest =>
      wordIdx <- stringBinarySearch wordsListEn word ;;
      if wordIdx =? -1 then Return (inr ErrInvalidWord)
      else getBinaryStrings_loop rest
             (strBuf ++ fmt.Sprintf_b 11 wordIdx)
  end.

(** Get the binary strings back from a mnemonic: entropy part, checksum
    part, error. *)
Definition getBinaryStrings (mnemonic : Mnemonic)
  : go (gostring * gostring * option error) :=
  let wordsList := strings.Split (Words mnemonic) chSpace in
  match validateWordsNum (len wordsList) with
  | Some err => Return ([], [], Some err)
  | None =>
      r <- getBinaryStrings_loop wordsList [] ;;
      match r with
      | inr err => Return ([], [], Some err)
      | inl mnemonicBinStr =>
          let chksumLen := Z.quot (len mnemonicBinStr) 33 in
          let chksumIdx := len mnemonicBinStr - chksumLen in
          entropyPart <- subslice mnemonicBinStr 0 chksumIdx ;;
          chksumPart <- subslice mnemonicBinStr chksumIdx
                          (len mnemonicBinStr) ;;
          Return (entropyPart, chksumPart, None)
      end
  end.

(** Convert a mnemonic back to entropy bytes. *)
Definition ToEntropy (mnemonic : Mnemonic) : go (list byte * option error) :=
  '(entropyBinStr, chksumBinStr, err) <- getBinaryStrings mnemonic ;;
  match err with
  | Some e => Return ([], Some e)
  | None =>
      '(entropy, _) <- binaryStringToBytes entropyBinStr ;;
      chksumComp <- entropyChecksumBinStr entropy ;;
      if negb (string_eqb chksumComp chksumBinStr)
      then Return ([], Some ErrChecksum)
      else Return (entropy, None)
  end.

(** Validate a mnemonic. *)
Definition Validate (mnemonic : Mnemonic) : go (option error) :=
  '(entropyBinStr, chksumBinStr, err) <- getBinaryStrings mnemonic ;;
  match err with
  | Some e => Return (Some e)
  | None =>
      '(entropy, _) <- binaryStringToBytes entropyBinStr ;;
      chksumComp <- entropyChecksumBinStr entropy ;;
      if negb (string_eqb chksumComp chksumBinStr)
      then Return (Some ErrChecksum)
      else Return None
  end.

(** Get if a mnemonic is valid. *)
Definition IsValid (mnemonic : Mnemonic) : go bool :=
  err <- Validate mnemonic ;;
  Return (match err with None => true | Some _ => false end).

(** Generate the seed from a mnemonic using the specified passphrase. *)
Definition GenerateSeed (mnemonic : Mnemonic) (passphrase : gostring)
  : go (list byte * option error) :=
  err <- Validate mnemonic ;;
  match err with
  | Some e => Return ([], Some e)
  | None =>
      let salt := seedSaltMod ++ passphrase in
      Return (pbkdf2_Key (Words mnemonic) salt seedPbkdf2Round
                seedPbkdf2KeyLen sha512_New, None)
  end.

End bip39.

Section generator.

Variable wordsListEn : list gostring.
Variable sha256_Sum256 : list byte -> list byte.

(** Modelled from the spec: [GenerateEntropy] is the random source of the
    package, declared outside the sources ("generate_entropy(bit_length)
    -> bytes | Error(InvalidEntropyLength)", an external secure-random
    collaborator).  The parameter gives the result of the one call
    [MnemonicFromWordsNum] makes, bytes and error. *)
Variable GenerateEntropy : Z -> list byte * option error.

(** Generate mnemonic from the specified words number. *)
Definition MnemonicFromWordsNum (wordsNum : Z)
  : go (option Mnemonic * option error) :=
  match validateWordsNum wordsNum with
  | Some err => Return (None, Some err)
  | None =>
      let entropyBitLen := wordsNum * 11 - Z.quot wordsNum 3 in
      let '(entropy, _) := GenerateEntropy entropyBitLen in
      MnemonicFromEntropy wordsListEn sha256_Sum256 entropy
  end.

End generator.

(** ** Vocabulary of the statements *)

(** A binary string: every character is [0] or [1]. *)
Definition is_bin (s : gostring) : Prop :=
  Forall (fun c => c = ch0 \/ c = ch1) s.

Definition is_binb (s : gostring) : bool :=
  forallb (fun c => byte_eqb c ch0 || byte_eqb c ch1) s.

(** The number a binary string denotes, most significant digit first,
    continuing from the value [n] of the digits already read. *)
Fixpoint bin_acc (s : gostring) (n : Z) : Z :=
  match s with
  | [] => n
  | c :: s' => bin_acc s' (2 * n + (if byte_eqb c ch1 then 1 else 0))
  end.

Definition bin_value (s : gostring) : Z := bin_acc s 0.

(** A word list in strictly ascending order (each word below the next, so
    no word occurs twice), and a word without a space. *)
Fixpoint sortedb (l : list gostring) : bool :=
  match l with
  | [] => true
  | w :: rest =>
      match rest with
      | [] => true
      | w' :: _ => string_ltb w w' && sortedb rest
      end
  end.

Definition no_spaceb (w : gostring) : bool :=
  forallb (fun c => negb (byte_eqb c chSpace)) w.

(** The statements about bits follow the specification's words: a byte is
    eight bits, most significant first; a group of bits is the unsigned
    number it denotes; a bit stream is cut into consecutive groups; words
    are joined by single spaces. *)
Definition byte_bits (b : byte) : list bool :=
  map (Z.testbit (byte_val b)) [7; 6; 5; 4; 3; 2; 1; 0].

Definition bits_of_bytes (bs : list byte) : list bool := flat_map byte_bits bs.

Definition bit_char (b : bool) : byte := if b then ch1 else ch0.

Definition bit_string (bits : list bool) : gostring := map bit_char bits.

Definition bits_to_Z (bits : list bool) : Z :=
  fold_left (fun n b => 2 * n + Z.b2z b) bits 0.

(** The first [n] consecutive groups of [k] elements of [s]. *)
Fixpoint groups {A : Type} (k n : nat) (s : list A) : list (list A) :=
  match n with
  | O => []
  | S n' => firstn k s :: groups k n' (skipn k s)
  end.

(** The groups of eight characters of a string, and what the loop of
    [binaryStringToBytes] makes of one: whether [strconv.ParseInt] reads
    it as a base-2 integer, and the byte of the integer read. *)
Definition byte_groups (binStr : gostring) : list gostring :=
  groups 8 (Z.to_nat (Z.quot (len binStr) 8)) binStr.

Definition group_parses (g : gostring) : bool :=
  match snd (strconv.ParseInt g 2 16) with
  | None => true
  | Some _ => false
  end.

Definition group_byte (g : gostring) : byte :=
  byte_of_Z (fst (strconv.ParseInt g 2 16)).

Definition join_spaces (ws : list gostring) : gostring :=
  match ws with
  | [] => []
  | w :: rest => w ++ flat_map (fun w' => chSpace :: w') rest
  end.

Section spec.

Variable wordsListEn : list gostring.
Variable sha256_Sum256 : list byte -> list byte.

(** The checksum: the first [len/4] bits of the digest of the entropy. *)
Definition checksum_bits (entropy : list byte) : list bool :=
  firstn (length entropy / 4) (bits_of_bytes (sha256_Sum256 entropy)).

Definition mnemonic_bits (entropy : list byte) : list bool :=
  bits_of_bytes entropy ++ checksum_bits entropy.

(** The word of a group: the word at the position the group denotes. *)
Definition group_word (g : list bool) : gostring :=
  nth (Z.to_nat (bits_to_Z g)) wordsListEn [].

(** The same on a group of binary characters. *)
Definition chunk_word (c : gostring) : gostring :=
  nth (Z.to_nat (bin_value c)) wordsListEn [].

(** The mnemonic sentence of the specification (4.4, Encode, steps 2-5). *)
Definition spec_mnemonic (entropy : list byte) : gostring :=
  let bits := mnemonic_bits entropy in
  join_spaces (map group_word (groups 11 (length bits / 11) bits)).

(** The index the decoder reads for a word: the result of the binary
    search, -1 when the word is not found. *)
Definition word_index (word : gostring) : Z :=
  match stringBinarySearch wordsListEn word with
  | Return idx => idx
  | Panic => -1
  end.

(** The bit stream the decoder rebuilds from the words of a mnemonic. *)
Definition bit_stream (wordsList : list gostring) : gostring :=
  flat_map (fun word => fmt.Sprintf_b 11 (word_index word)) wordsList.

End spec.

(** ** An instance of the parameters

    The theorems below hold for every word list, digest and key derivation
    that meet the assumptions stated with them.  To run the functions on
    concrete inputs the parameters are instantiated here with small
    stand-ins: 2048 synthetic words in ascending order ([w] followed by
    the eleven binary digits of the position), a 32-byte digest that is
    not SHA-256, and a key derivation that is not PBKDF2. *)
Definition demoWordsList : list gostring :=
  map (fun i => str "w" ++ fmt.Sprintf_b 11 (Z.of_nat i)) (seq 0 2048).

Definition demoSum256 (message : list byte) : list byte :=
  let c := fold_left (fun a b => a + byte_val b) message (len message) in
  map (fun i => byte_of_Z (c + Z.of_nat i)) (seq 0 32).

Definition demoKey (password salt : list byte) (iter keyLen : Z) (h : unit)
  : list byte :=
  map (fun i => byte_of_Z (len password + len salt + iter + Z.of_nat i))
    (seq 0 (Z.to_nat keyLen)).

(** Sixteen zero bytes, and the sentence the encoder gives for them with
    the stand-ins. *)
Definition zeroEntropy : list byte := repeat (byte_of_Z 0) 16.

Definition demoMnemonic : Mnemonic :=
  {| Words := str "w00000000000 w00000000000 w00000000000 w00000000000 w00000000000 w00000000000 w00000000000 w00000000000 w00000000000 w00000000000 w00000000000 w00000000001" |}.

(** Sentences for the error paths: two words; twelve words, the last of
    which is in no list. *)
Definition shortMnemonic : Mnemonic := {| Words := str "hello world" |}.

Definition unknownWordMnemonic : Mnemonic :=
  {| Words := str "w00000000000 w00000000000 w00000000000 w00000000000 w00000000000 w00000000000 w00000000000 w00000000000 w00000000000 w00000000000 w00000000000 zebra" |}.

(** 1028 zero bytes: more bytes than the digest has bits for. *)
Definition longInput : list byte := repeat (byte_of_Z 0) 1028.

(** A source that returns the requested number of bits, all zero. *)
Definition demoGenerateEntropy (bitLen : Z) : list byte * option error :=
  (repeat (byte_of_Z 0) (Z.to_nat (Z.quot bitLen 8)), None).

(** A binary string of two bytes. *)
Definition demoBinStr : gostring := str "0100000100100001".
(** * Properties *)

(** ** Slices and indices that are in range *)

Lemma len_nonneg {A : Type} (s : list A) : 0 <= len s.
Proof. unfold len. lia. Qed.

Lemma len_app {A : Type} (s t : list A) : len (s ++ t) = len s + len t.
Proof. unfold len. rewrite length_app. lia. Qed.

Lemma len_cons {A : Type} (a : A) (s : list A) : len (a :: s) = 1 + len s.
Proof. unfold len. simpl length. lia. Qed.

Lemma len_nil {A : Type} : len (@nil A) = 0.
Proof. reflexivity. Qed.

(** Division of a length, in [nat] and in [Z]. *)
Lemma of_nat_div (n k : nat) :
  (0 < k)%nat -> Z.of_nat (n / k) = Z.quot (Z.of_nat n) (Z.of_nat k).
Proof.
  intros Hk. rewrite Z.quot_div_nonneg by lia. apply Nat2Z.inj_div.
Qed.

Lemma to_nat_quot (n k : nat) :
  (0 < k)%nat -> Z.to_nat (Z.quot (Z.of_nat n) (Z.of_nat k)) = (n / k)%nat.
Proof. intros Hk. rewrite <- of_nat_div by exact Hk. apply Nat2Z.id. Qed.

Lemma subslice_in_range {A : Type} (s : list A) (lo hi : Z) :
  0 <= lo -> lo <= hi -> hi <= len s ->
  subslice s lo hi = Return (firstn (Z.to_nat (hi - lo)) (skipn (Z.to_nat lo) s)).
Proof.
  intros H0 H1 H2. unfold subslice.
  destruct (0 <=? lo) eqn:E0; [| lia].
  destruct (lo <=? hi) eqn:E1; [| lia].
  destruct (hi <=? len s) eqn:E2; [reflexivity | lia].
Qed.

Lemma subslice_out_of_range {A : Type} (s : list A) (lo hi : Z) :
  len s < hi -> subslice s lo hi = Panic.
Proof.
  intros H. unfold subslice.
  destruct (hi <=? len s) eqn:E; [lia |].
  rewrite andb_false_r. reflexivity.
Qed.

Lemma index_in_range {A : Type} (s : list A) (i : Z) (d : A) :
  0 <= i < len s -> index s i = Return (nth (Z.to_nat i) s d).
Proof.
  intros H. unfold index.
  destruct (0 <=? i) eqn:E0; [| lia].
  destruct (i <? len s) eqn:E1; [| lia]. simpl.
  destruct (nth_error s (Z.to_nat i)) eqn:E.
  - f_equal. symmetry. apply nth_error_nth. exact E.
  - apply nth_error_None in E. unfold len in H. lia.
Qed.

(** ** Equality and order of strings *)

Lemma byte_eqb_eq (a b : byte) : byte_eqb a b = true <-> a = b.
Proof. apply Ascii.eqb_eq. Qed.

Lemma string_eqb_eq (s t : gostring) : string_eqb s t = true <-> s = t.
Proof.
  revert t. induction s as [| a s IH]; intros [| b t]; simpl;
    try (split; [discriminate | discriminate]); [tauto |].
  rewrite andb_true_iff, byte_eqb_eq, IH.
  split; [intros [-> ->]; reflexivity | intros E; inversion E; auto].
Qed.

Lemma string_eqb_refl (s : gostring) : string_eqb s s = true.
Proof. apply string_eqb_eq. reflexivity. Qed.

Lemma ascii_compare_refl (a : ascii) : Ascii.compare a a = Eq.
Proof. unfold Ascii.compare. apply N.compare_refl. Qed.

Lemma ascii_compare_lt_trans (a b c : ascii) :
  Ascii.compare a b = Lt -> Ascii.compare b c = Lt -> Ascii.compare a c = Lt.
Proof.
  unfold Ascii.compare. rewrite !N.compare_lt_iff. apply N.lt_trans.
Qed.

Lemma string_compare_refl (s : gostring) : string_compare s s = Eq.
Proof.
  induction s as [| a s IH]; simpl; [reflexivity |].
  rewrite ascii_compare_refl. exact IH.
Qed.

Lemma string_compare_lt_trans (s t u : gostring) :
  string_compare s t = Lt -> string_compare t u = Lt -> string_compare s u = Lt.
Proof.
  revert t u. induction s as [| a s IH]; intros [| b t] [| c u]; simpl;
    try discriminate; try reflexivity.
  destruct (Ascii.compare a b) eqn:Eab; try discriminate;
    destruct (Ascii.compare b c) eqn:Ebc; try discriminate; intros H1 H2.
  - apply Ascii.compare_eq_iff in Eab, Ebc. subst.
    rewrite ascii_compare_refl. eapply IH; eassumption.
  - apply Ascii.compare_eq_iff in Eab. subst. rewrite Ebc. reflexivity.
  - apply Ascii.compare_eq_iff in Ebc. subst. rewrite Eab. reflexivity.
  - rewrite (ascii_compare_lt_trans _ _ _ Eab Ebc). reflexivity.
Qed.

Lemma string_compare_antisym (s t : gostring) :
  string_compare s t = CompOpp (string_compare t s).
Proof.
  revert t. induction s as [| a s IH]; intros [| b t]; simpl; try reflexivity.
  rewrite (Ascii.compare_antisym a b).
  destruct (Ascii.compare b a); simpl; auto.
Qed.

Lemma string_geb_refl (s : gostring) : string_geb s s = true.
Proof. unfold string_geb, string_ltb. rewrite string_compare_refl. reflexivity. Qed.

Lemma string_geb_of_gt (s t : gostring) :
  string_ltb t s = true -> string_geb s t = true.
Proof.
  unfold string_geb, string_ltb. rewrite (string_compare_antisym s t).
  destruct (string_compare t s); simpl; congruence.
Qed.

Lemma string_geb_of_lt (s t : gostring) :
  string_ltb s t = true -> string_geb s t = false.
Proof. unfold string_geb. intros ->. reflexivity. Qed.

(** ** Binary strings, [ParseInt] and [Sprintf] *)

Lemma is_binb_spec (s : gostring) : is_binb s = true <-> is_bin s.
Proof.
  unfold is_binb, is_bin. rewrite forallb_forall, Forall_forall.
  split; intros H c Hc; specialize (H c Hc).
  - apply orb_true_iff in H. rewrite !byte_eqb_eq in H. exact H.
  - apply orb_true_iff. rewrite !byte_eqb_eq. exact H.
Qed.

Lemma is_bin_app (s t : gostring) : is_bin (s ++ t) <-> is_bin s /\ is_bin t.
Proof. apply Forall_app. Qed.

Lemma is_bin_firstn (n : nat) (s : gostring) : is_bin s -> is_bin (firstn n s).
Proof.
  intros H. rewrite <- (firstn_skipn n s) in H.
  apply is_bin_app in H. tauto.
Qed.

Lemma is_bin_skipn (n : nat) (s : gostring) : is_bin s -> is_bin (skipn n s).
Proof.
  intros H. rewrite <- (firstn_skipn n s) in H.
  apply is_bin_app in H. tauto.
Qed.

Lemma is_bin_repeat (n : nat) : is_bin (repeat ch0 n).
Proof.
  induction n; simpl; constructor; auto.
Qed.

Lemma bin_acc_app (s t : gostring) (n : Z) :
  bin_acc (s ++ t) n = bin_acc t (bin_acc s n).
Proof. revert n. induction s as [| c s IH]; intros n; simpl; auto. Qed.

Lemma bin_acc_bounds (s : gostring) (n : Z) :
  0 <= n ->
  n * 2 ^ len s <= bin_acc s n < (n + 1) * 2 ^ len s.
Proof.
  revert n. induction s as [| c s IH]; intros n Hn.
  - cbn [bin_acc]. rewrite len_nil. lia.
  - cbn [bin_acc]. rewrite len_cons.
    rewrite Z.pow_add_r by (pose proof (len_nonneg s); lia).
    change (2 ^ 1) with 2.
    pose proof (Z.pow_pos_nonneg 2 (len s) ltac:(lia) (len_nonneg s)) as Hp.
    destruct (byte_eqb c ch1).
    + specialize (IH (2 * n + 1) ltac:(lia)). nia.
    + specialize (IH (2 * n + 0) ltac:(lia)). nia.
Qed.

Lemma bin_value_bounds (s : gostring) : 0 <= bin_value s < 2 ^ len s.
Proof.
  unfold bin_value. pose proof (bin_acc_bounds s 0 ltac:(lia)). lia.
Qed.

Lemma bin_acc_zeros (k : nat) (n : Z) :
  bin_acc (repeat ch0 k) n = n * 2 ^ Z.of_nat k.
Proof.
  revert n. induction k as [| k IH]; intros n.
  - simpl. lia.
  - cbn [repeat bin_acc]. change (byte_eqb ch0 ch1) with false.
    rewrite IH. rewrite Nat2Z.inj_succ, Z.pow_succ_r by lia. lia.
Qed.

Lemma digit_bin (c : byte) :
  c = ch0 \/ c = ch1 ->
  strconv.digit 2 c = Some (if byte_eqb c ch1 then 1 else 0).
Proof. intros [-> | ->]; reflexivity. Qed.

Lemma ParseUint_loop_bin (s : gostring) (n : Z) :
  is_bin s -> 0 <= n -> (n + 1) * 2 ^ len s <= 65536 ->
  strconv.ParseUint_loop s 2 65535 n = (bin_acc s n, None).
Proof.
  revert n. induction s as [| c s IH]; intros n Hs Hn Hb; [reflexivity |].
  inversion Hs as [| ? ? Hc Hs']; subst.
  cbn [strconv.ParseUint_loop bin_acc]. rewrite (digit_bin c Hc).
  rewrite len_cons in Hb.
  rewrite Z.pow_add_r in Hb by (pose proof (len_nonneg s); lia).
  change (2 ^ 1) with 2 in Hb.
  pose proof (Z.pow_pos_nonneg 2 (len s) ltac:(lia) (len_nonneg s)) as Hp.
  set (d := if byte_eqb c ch1 then 1 else 0).
  assert (Hd : 0 <= d <= 1) by (subst d; destruct (byte_eqb c ch1); lia).
  change (2 ^ 64 / 2 + 1) with 9223372036854775809.
  change (2 ^ 64) with 18446744073709551616.
  destruct (9223372036854775809 <=? n) eqn:E1; [nia |].
  replace (n * 2 + d) with (2 * n + d) by lia.
  destruct (18446744073709551616 <=? 2 * n + d) eqn:E2; [nia |].
  destruct (65535 <? 2 * n + d) eqn:E3; [nia |]. simpl orb. cbv iota.
  apply IH; [assumption | lia | nia].
Qed.

(** On a non-empty binary string of at most 15 digits [ParseInt] returns
    the number it denotes and no error. *)
Lemma ParseInt_bin (s : gostring) :
  is_bin s -> 0 < len s <= 15 ->
  strconv.ParseInt s 2 16 = (bin_value s, None).
Proof.
  intros Hs Hl. destruct s as [| c s]; [unfold len in Hl; simpl in Hl; lia |].
  assert (Hc : c = ch0 \/ c = ch1) by (inversion Hs; assumption).
  pose proof (bin_value_bounds (c :: s)) as Hv.
  assert (Hp : 2 ^ len (c :: s) <= 2 ^ 15)
    by (apply Z.pow_le_mono_r; lia).
  change (2 ^ 15) with 32768 in Hp.
  unfold strconv.ParseInt.
  assert (Hsign : byte_eqb c chMinus = false /\ byte_eqb c chPlus = false)
    by (destruct Hc as [-> | ->]; split; reflexivity).
  destruct Hsign as [-> ->]. simpl orb. cbv iota.
  unfold strconv.ParseUint. change (2 ^ 16 - 1) with 65535.
  rewrite ParseUint_loop_bin; [| assumption | lia | lia].
  fold (bin_value (c :: s)). cbv iota beta.
  change (2 ^ (16 - 1)) with 32768. simpl negb. simpl andb.
  destruct (32768 <=? bin_value (c :: s)) eqn:E; [lia | reflexivity].
Qed.

Lemma bits_pos_bin (p : positive) : is_bin (fmt.bits_pos p).
Proof.
  induction p as [q IH | q IH |]; cbn [fmt.bits_pos].
  - apply is_bin_app. split; [exact IH | constructor; [right; reflexivity | constructor]].
  - apply is_bin_app. split; [exact IH | constructor; [left; reflexivity | constructor]].
  - constructor; [right; reflexivity | constructor].
Qed.

Lemma digits_bin (v : Z) : is_bin (fmt.digits v).
Proof.
  destruct v; cbn [fmt.digits]; try apply bits_pos_bin.
  constructor; [left; reflexivity | constructor].
Qed.

Lemma bits_pos_value (p : positive) : bin_value (fmt.bits_pos p) = Zpos p.
Proof.
  unfold bin_value. induction p; simpl; try rewrite bin_acc_app, IHp;
    try reflexivity.
Qed.

Lemma digits_value (v : Z) : 0 <= v -> bin_value (fmt.digits v) = v.
Proof.
  destruct v; simpl; intros H; [reflexivity | apply bits_pos_value | lia].
Qed.

Lemma bits_pos_len (p : positive) (k : Z) :
  0 <= k -> Zpos p < 2 ^ k -> len (fmt.bits_pos p) <= k.
Proof.
  revert k. induction p as [q IH | q IH |]; intros k Hk Hp.
  - simpl. rewrite len_app. change (len [ch1]) with 1.
    assert (0 < k) by (destruct (Z.eq_dec k 0); [subst; simpl in Hp; lia | lia]).
    specialize (IH (k - 1) ltac:(lia)).
    replace k with (Z.succ (k - 1)) in Hp by lia.
    rewrite Z.pow_succ_r in Hp by lia. lia.
  - simpl. rewrite len_app. change (len [ch0]) with 1.
    assert (0 < k) by (destruct (Z.eq_dec k 0); [subst; simpl in Hp; lia | lia]).
    specialize (IH (k - 1) ltac:(lia)).
    replace k with (Z.succ (k - 1)) in Hp by lia.
    rewrite Z.pow_succ_r in Hp by lia. lia.
  - simpl. change (len [ch1]) with 1.
    destruct (Z.eq_dec k 0); [subst; simpl in Hp; lia | lia].
Qed.

Lemma digits_len (v k : Z) :
  0 < k -> 0 <= v < 2 ^ k -> 0 < len (fmt.digits v) <= k.
Proof.
  intros Hk Hv. destruct v as [| p | p]; simpl.
  - change (len [ch0]) with 1. lia.
  - split; [| apply bits_pos_len; lia].
    destruct p; simpl; rewrite ?len_app; try change (len [ch1]) with 1;
      try change (len [ch0]) with 1;
      try (pose proof (len_nonneg (fmt.bits_pos p)); lia); lia.
  - lia.
Qed.

(** For [0 <= v] and a positive precision, [Sprintf_b] pads the digits. *)
Lemma Sprintf_b_nonneg (prec v : Z) :
  0 < prec -> 0 <= v ->
  fmt.Sprintf_b prec v =
  repeat ch0 (Z.to_nat (prec - len (fmt.digits v))) ++ fmt.digits v.
Proof.
  intros Hp Hv. unfold fmt.Sprintf_b.
  destruct (prec =? 0) eqn:E; [lia |]. simpl andb. cbv iota.
  destruct (v <? 0) eqn:E'; [lia | reflexivity].
Qed.

Lemma Sprintf_b_bin (prec v : Z) :
  0 < prec -> 0 <= v -> is_bin (fmt.Sprintf_b prec v).
Proof.
  intros Hp Hv. rewrite Sprintf_b_nonneg by assumption.
  apply is_bin_app. split; [apply is_bin_repeat | apply digits_bin].
Qed.

Lemma Sprintf_b_len (prec v : Z) :
  0 < prec -> 0 <= v < 2 ^ prec -> len (fmt.Sprintf_b prec v) = prec.
Proof.
  intros Hp Hv. rewrite Sprintf_b_nonneg by lia.
  pose proof (digits_len v prec Hp Hv) as Hd.
  rewrite len_app. unfold len at 1. rewrite repeat_length. lia.
Qed.

Lemma Sprintf_b_value (prec v : Z) :
  0 < prec -> 0 <= v -> bin_value (fmt.Sprintf_b prec v) = v.
Proof.
  intros Hp Hv. rewrite Sprintf_b_nonneg by lia.
  unfold bin_value. rewrite bin_acc_app, bin_acc_zeros.
  simpl. apply digits_value. exact Hv.
Qed.

(** Two binary strings of one length that denote one number are equal. *)
Lemma bin_acc_inj (s t : gostring) (n : Z) :
  is_bin s -> is_bin t -> length s = length t -> 0 <= n ->
  bin_acc s n = bin_acc t n -> s = t.
Proof.
  revert t n. induction s as [| c s IH]; intros [| c' t] n Hs Ht Hl Hn He;
    try discriminate; [reflexivity |].
  inversion Hs as [| ? ? Hc Hs']; inversion Ht as [| ? ? Hc' Ht']; subst.
  injection Hl as Hl. cbn [bin_acc] in He.
  assert (Hlen : len s = len t) by (unfold len; congruence).
  pose proof (Z.pow_pos_nonneg 2 (len t) ltac:(lia) (len_nonneg t)) as Hp.
  assert (Hcc : c = c').
  { destruct Hc as [-> | ->], Hc' as [-> | ->]; try reflexivity; exfalso;
      change (byte_eqb ch0 ch1) with false in He;
      change (byte_eqb ch1 ch1) with true in He; cbv iota in He.
    - pose proof (bin_acc_bounds s (2 * n + 0) ltac:(lia)).
      pose proof (bin_acc_bounds t (2 * n + 1) ltac:(lia)).
      rewrite Hlen in *. nia.
    - pose proof (bin_acc_bounds s (2 * n + 1) ltac:(lia)).
      pose proof (bin_acc_bounds t (2 * n + 0) ltac:(lia)).
      rewrite Hlen in *. nia. }
  subst c'. f_equal.
  apply (IH t (2 * n + (if byte_eqb c ch1 then 1 else 0))); auto.
  destruct (byte_eqb c ch1); lia.
Qed.

(** Formatting the number a binary string denotes, with the length of the
    string as precision, gives the string back. *)
Lemma Sprintf_b_of_bin (s : gostring) :
  is_bin s -> 0 < len s -> fmt.Sprintf_b (len s) (bin_value s) = s.
Proof.
  intros Hs Hl. pose proof (bin_value_bounds s) as Hv.
  apply (bin_acc_inj _ _ 0).
  - apply Sprintf_b_bin; lia.
  - exact Hs.
  - apply Nat2Z.inj. exact (Sprintf_b_len (len s) (bin_value s) Hl Hv).
  - lia.
  - exact (Sprintf_b_value (len s) (bin_value s) Hl (proj1 Hv)).
Qed.

Lemma digit_two (c : byte) (d : Z) :
  strconv.digit 2 c = Some d -> 0 <= d <= 1.
Proof.
  unfold strconv.digit.
  destruct (0 <=? byte_val c - byte_val ch0) eqn:E0; [| discriminate].
  destruct (byte_val c - byte_val ch0 <=? 9); [| discriminate].
  destruct (byte_val c - byte_val ch0 <? 2) eqn:E2; [| discriminate].
  cbn [andb]. intros [= <-].
  apply Z.leb_le in E0. apply Z.ltb_lt in E2. lia.
Qed.

(** A string of at most 15 characters is too short for a range error. *)
Lemma ParseUint_loop_short (s : gostring) (n : Z) :
  0 <= n -> (n + 1) * 2 ^ len s <= 65536 ->
  (exists v, strconv.ParseUint_loop s 2 65535 n = (v, None) /\
             0 <= v < (n + 1) * 2 ^ len s) \/
  strconv.ParseUint_loop s 2 65535 n = (0, Some ErrSyntax).
Proof.
  revert n. induction s as [| c s IH]; intros n Hn Hb.
  - left. exists n. split; [reflexivity | unfold len; simpl; lia].
  - cbn [strconv.ParseUint_loop].
    destruct (strconv.digit 2 c) as [d |] eqn:Ed; [| right; reflexivity].
    apply digit_two in Ed.
    rewrite len_cons in *.
    rewrite Z.pow_add_r in * by (pose proof (len_nonneg s); lia).
    change (2 ^ 1) with 2 in *.
    pose proof (Z.pow_pos_nonneg 2 (len s) ltac:(lia) (len_nonneg s)) as Hp.
    change (2 ^ 64 / 2 + 1) with 9223372036854775809.
    change (2 ^ 64) with 18446744073709551616.
    destruct (9223372036854775809 <=? n) eqn:E1; [nia |].
    destruct (18446744073709551616 <=? n * 2 + d) eqn:E2; [nia |].
    destruct (65535 <? n * 2 + d) eqn:E3; [nia |]. simpl orb. cbv iota.
    destruct (IH (n * 2 + d) ltac:(lia) ltac:(nia)) as [(v & Hv & Hr) | Hv].
    + left. exists v. split; [exact Hv | nia].
    + right. exact Hv.
Qed.

Lemma ParseInt_short (s : gostring) :
  len s <= 15 ->
  (exists v, strconv.ParseInt s 2 16 = (v, None)) \/
  strconv.ParseInt s 2 16 = (0, Some ErrSyntax).
Proof.
  intros Hl. destruct s as [| c s]; [right; reflexivity |].
  unfold strconv.ParseInt.
  set (neg := byte_eqb c chMinus).
  set (ds := if byte_eqb c chPlus || neg then s else c :: s).
  assert (Hds : len ds <= 15).
  { subst ds. rewrite len_cons in Hl.
    destruct (byte_eqb c chPlus || neg); [lia | rewrite len_cons; lia]. }
  clearbody ds. unfold strconv.ParseUint.
  destruct ds as [| c' ds']; [right; reflexivity |].
  change (2 ^ 16 - 1) with 65535.
  pose proof (Z.pow_le_mono_r 2 (len (c' :: ds')) 15 ltac:(lia) Hds) as Hp.
  change (2 ^ 15) with 32768 in Hp.
  destruct (ParseUint_loop_short (c' :: ds') 0 ltac:(lia) ltac:(lia))
    as [(v & -> & Hv) | ->]; [| right; reflexivity].
  left. cbv iota beta. change (2 ^ (16 - 1)) with 32768.
  destruct (32768 <=? v) eqn:E1; [lia |].
  destruct (32768 <? v) eqn:E2; [lia |].
  rewrite !andb_false_r. eexists. reflexivity.
Qed.

(** ** The binary codec *)

Lemma byte_val_bounds (b : byte) : 0 <= byte_val b < 256.
Proof.
  unfold byte_val. pose proof (N_ascii_bounded b). lia.
Qed.

Lemma byte_of_Z_val (b : byte) : byte_of_Z (byte_val b) = b.
Proof.
  unfold byte_of_Z. pose proof (byte_val_bounds b) as H.
  rewrite Z.mod_small by lia. unfold byte_val.
  rewrite N2Z.id. apply ascii_N_embedding.
Qed.

Lemma bytesToBinaryString_loop_app (slice : list byte) (strBuff : gostring) :
  bytesToBinaryString_loop slice strBuff =
  strBuff ++ bytesToBinaryString_loop slice [].
Proof.
  revert strBuff. induction slice as [| b rest IH]; intros strBuff.
  - cbn [bytesToBinaryString_loop]. rewrite app_nil_r. reflexivity.
  - cbn [bytesToBinaryString_loop].
    rewrite (IH (strBuff ++ _)), (IH ([] ++ _)).
    rewrite app_nil_l, app_assoc. reflexivity.
Qed.

Lemma bytesToBinaryString_cons (b : byte) (rest : list byte) :
  bytesToBinaryString (b :: rest) =
  fmt.Sprintf_b 8 (byte_val b) ++ bytesToBinaryString rest.
Proof.
  unfold bytesToBinaryString. cbn [bytesToBinaryString_loop].
  rewrite bytesToBinaryString_loop_app. reflexivity.
Qed.

Lemma byte_bits_bin (b : byte) : is_bin (fmt.Sprintf_b 8 (byte_val b)).
Proof. apply Sprintf_b_bin; [lia | apply byte_val_bounds]. Qed.

Lemma byte_bits_len (b : byte) : len (fmt.Sprintf_b 8 (byte_val b)) = 8.
Proof.
  apply Sprintf_b_len; [lia |]. pose proof (byte_val_bounds b).
  change (2 ^ 8) with 256. lia.
Qed.

Lemma bytesToBinaryString_bin (slice : list byte) :
  is_bin (bytesToBinaryString slice).
Proof.
  induction slice as [| b rest IH]; [constructor |].
  rewrite bytesToBinaryString_cons. apply is_bin_app.
  split; [apply byte_bits_bin | exact IH].
Qed.

Lemma bytesToBinaryString_len (slice : list byte) :
  len (bytesToBinaryString slice) = 8 * len slice.
Proof.
  induction slice as [| b rest IH]; [reflexivity |].
  rewrite bytesToBinaryString_cons, len_app, byte_bits_len, IH, len_cons. lia.
Qed.

(** The slice [s[i:i+k]] that starts after a prefix [pre] of length [i]
    and is followed by anything. *)
Lemma subslice_middle {A : Type} (pre mid post : list A) :
  subslice (pre ++ mid ++ post) (len pre) (len pre + len mid) = Return mid.
Proof.
  rewrite subslice_in_range.
  - f_equal. replace (len pre + len mid - len pre) with (len mid) by lia.
    unfold len. rewrite !Nat2Z.id.
    rewrite skipn_app, skipn_all, Nat.sub_diag, skipn_0, app_nil_l.
    rewrite firstn_app, firstn_all, Nat.sub_diag, firstn_0, app_nil_r.
    reflexivity.
  - apply len_nonneg.
  - pose proof (len_nonneg mid). lia.
  - rewrite !len_app. pose proof (len_nonneg post). lia.
Qed.

Lemma binaryStringToBytes_loop_bytes (rest : list byte) :
  forall (pre : gostring) (acc : list byte),
    binaryStringToBytes_loop (length rest) (pre ++ bytesToBinaryString rest)
      (len pre) acc = Return (acc ++ rest, None).
Proof.
  induction rest as [| b rest IH]; intros pre acc.
  - cbn [length binaryStringToBytes_loop]. rewrite app_nil_r. reflexivity.
  - cbn [length binaryStringToBytes_loop].
    rewrite bytesToBinaryString_cons.
    rewrite <- (byte_bits_len b) at 2.
    rewrite subslice_middle. cbn [bind].
    rewrite ParseInt_bin;
      [| apply byte_bits_bin | rewrite byte_bits_len; lia ].
    rewrite Sprintf_b_value by (pose proof (byte_val_bounds b); lia).
    rewrite byte_of_Z_val.
    rewrite app_assoc.
    replace (len pre + 8) with (len (pre ++ fmt.Sprintf_b 8 (byte_val b)))
      by (rewrite len_app, byte_bits_len; reflexivity).
    rewrite IH. rewrite <- app_assoc. reflexivity.
Qed.

(** Decoding the binary string of a byte slice gives the slice back. *)
Lemma binaryStringToBytes_bytesToBinaryString (slice : list byte) :
  binaryStringToBytes (bytesToBinaryString slice) = Return (slice, None).
Proof.
  unfold binaryStringToBytes. rewrite bytesToBinaryString_len.
  replace (Z.rem (8 * len slice) 8) with 0
    by (pose proof (len_nonneg slice); lia).
  cbn [Z.eqb negb].
  replace (Z.to_nat (Z.quot (8 * len slice) 8)) with (length slice)
    by (unfold len; lia).
  apply (binaryStringToBytes_loop_bytes slice [] []).
Qed.

Lemma subslice_len {A : Type} (s r : list A) (lo hi : Z) :
  subslice s lo hi = Return r -> len r = hi - lo.
Proof.
  unfold subslice.
  destruct (0 <=? lo) eqn:E0; [| discriminate].
  destruct (lo <=? hi) eqn:E1; [| discriminate].
  destruct (hi <=? len s) eqn:E2; [| discriminate].
  cbn [andb]. intros [= <-].
  apply Z.leb_le in E0, E1, E2. unfold len in *.
  rewrite length_firstn, length_skipn. lia.
Qed.

Lemma subslice_bin (s r : gostring) (lo hi : Z) :
  is_bin s -> subslice s lo hi = Return r -> is_bin r.
Proof.
  unfold subslice. intros Hs.
  destruct ((0 <=? lo) && (lo <=? hi) && (hi <=? len s)); [| discriminate].
  intros [= <-]. apply is_bin_firstn, is_bin_skipn, Hs.
Qed.

(** The loop of [binaryStringToBytes] on any string: it never panics, it
    produces one byte per turn, and it stops early only with the syntax
    error of [ParseInt], which a binary string never raises. *)
Lemma binaryStringToBytes_loop_shape (binStr : gostring) (iters : nat) :
  forall (i : Z) (acc : list byte),
    0 <= i -> i + 8 * Z.of_nat iters <= len binStr ->
    (exists bytes,
        binaryStringToBytes_loop iters binStr i acc = Return (acc ++ bytes, None)
        /\ length bytes = iters) \/
    (binaryStringToBytes_loop iters binStr i acc
       = Return ([], Some (NumError ErrSyntax)) /\ ~ is_bin binStr).
Proof.
  induction iters as [| iters IH]; intros i acc Hi Hb.
  - left. exists []. rewrite app_nil_r. split; reflexivity.
  - cbn [binaryStringToBytes_loop].
    destruct (subslice binStr i (i + 8)) as [chunk |] eqn:Ec;
      [| rewrite subslice_in_range in Ec by lia; discriminate].
    cbn [bind].
    pose proof (subslice_len _ _ _ _ Ec) as Hlen.
    destruct (ParseInt_short chunk ltac:(lia)) as [[v Hv] | Hv]; rewrite Hv.
    + destruct (IH (i + 8) (acc ++ [byte_of_Z v]) ltac:(lia) ltac:(lia))
        as [(bytes & Hr & Hn) | [Hr Hnb]].
      * left. exists (byte_of_Z v :: bytes). rewrite Hr, <- app_assoc.
        split; [reflexivity | simpl; lia].
      * right. split; assumption.
    + right. split; [reflexivity |]. intros Hbin.
      pose proof (subslice_bin _ _ _ _ Hbin Ec) as Hcb.
      rewrite (ParseInt_bin chunk Hcb ltac:(lia)) in Hv. discriminate.
Qed.

(** A string whose length is a multiple of 8 is converted, or stopped by
    the syntax error of [ParseInt]. *)
Lemma binaryStringToBytes_shape (binStr : gostring) :
  Z.rem (len binStr) 8 = 0 ->
  (exists bytes,
      binaryStringToBytes binStr = Return (bytes, None) /\
      len binStr = 8 * len bytes) \/
  (binaryStringToBytes binStr = Return ([], Some (NumError ErrSyntax)) /\
   ~ is_bin binStr).
Proof.
  intros Hr. unfold binaryStringToBytes. rewrite Hr. cbn [Z.eqb negb].
  pose proof (len_nonneg binStr) as Hn.
  destruct (binaryStringToBytes_loop_shape binStr
              (Z.to_nat (Z.quot (len binStr) 8)) 0 [] ltac:(lia) ltac:(lia))
    as [(bytes & Hb & Hl) | Hb]; [left | right; exact Hb].
  exists bytes. split; [exact Hb |]. unfold len at 2. lia.
Qed.

(** A binary string whose length is a multiple of 8 is converted. *)
Lemma binaryStringToBytes_of_bin (binStr : gostring) :
  Z.rem (len binStr) 8 = 0 -> is_bin binStr ->
  exists bytes,
    binaryStringToBytes binStr = Return (bytes, None) /\
    len binStr = 8 * len bytes.
Proof.
  intros Hr Hbin.
  destruct (binaryStringToBytes_shape binStr Hr) as [Hb | [_ Hnb]];
    [exact Hb | contradiction].
Qed.

(** [binaryStringToBytes] never panics. *)
Lemma binaryStringToBytes_total (binStr : gostring) :
  exists r, binaryStringToBytes binStr = Return r.
Proof.
  destruct (Z.eq_dec (Z.rem (len binStr) 8) 0) as [Hr | Hr].
  - destruct (binaryStringToBytes_shape binStr Hr) as [(bytes & -> & _) | [-> _]];
      eexists; reflexivity.
  - unfold binaryStringToBytes.
    destruct (Z.rem (len binStr) 8 =? 0) eqn:E; [lia |].
    eexists; reflexivity.
Qed.


(** ** Binary search *)

Lemma shiftr1_mid (i j : Z) : i < j -> i <= Z.shiftr (i + j) 1 < j.
Proof.
  intros H. rewrite Z.shiftr_div_pow2 by lia. change (2 ^ 1) with 2. lia.
Qed.

(** The fuel of [Search_loop] does not matter once it covers the interval:
    the loop always leaves through its test [i < j]. *)
Lemma Search_loop_fuel (f : Z -> go bool) (fuel1 : nat) :
  forall (fuel2 : nat) (i j : Z),
    j - i <= Z.of_nat fuel1 -> j - i <= Z.of_nat fuel2 ->
    sort.Search_loop fuel1 f i j = sort.Search_loop fuel2 f i j.
Proof.
  induction fuel1 as [| fuel1 IH]; intros [| fuel2] i j H1 H2;
    cbn [sort.Search_loop]; try reflexivity.
  - destruct (i <? j) eqn:E; [lia | reflexivity].
  - destruct (i <? j) eqn:E; [lia | reflexivity].
  - destruct (i <? j) eqn:E; [| reflexivity].
    apply Z.ltb_lt in E. pose proof (shiftr1_mid i j E) as Hm. cbv zeta.
    destruct (f (Z.shiftr (i + j) 1)) as [b |]; [| reflexivity].
    cbn [bind]. destruct b; cbn [negb]; apply IH; lia.
Qed.

(** When the test is defined on [[0, n)], [Search_loop] returns an index
    of the interval it starts from. *)
Lemma Search_loop_range (f : Z -> go bool) (n : Z) (fuel : nat) :
  (forall h, 0 <= h < n -> exists b, f h = Return b) ->
  forall i j, 0 <= i -> i <= j -> j <= n ->
    exists r, sort.Search_loop fuel f i j = Return r /\ i <= r <= j.
Proof.
  intros Hf. induction fuel as [| fuel IH]; intros i j H0 H1 H2;
    cbn [sort.Search_loop].
  - exists i. split; [reflexivity | lia].
  - destruct (i <? j) eqn:E; [| exists i; split; [reflexivity | lia]].
    apply Z.ltb_lt in E. pose proof (shiftr1_mid i j E) as Hm. cbv zeta.
    destruct (Hf (Z.shiftr (i + j) 1) ltac:(lia)) as [b ->]. cbn [bind].
    destruct b; cbn [negb].
    + destruct (IH i (Z.shiftr (i + j) 1) ltac:(lia) ltac:(lia) ltac:(lia))
        as (r & -> & Hr). exists r. split; [reflexivity | lia].
    + destruct (IH (Z.shiftr (i + j) 1 + 1) j ltac:(lia) ltac:(lia) ltac:(lia))
        as (r & -> & Hr). exists r. split; [reflexivity | lia].
Qed.

(** When the test is [k <= h], [Search_loop] finds [k]. *)
Lemma Search_loop_threshold (f : Z -> go bool) (n k : Z) (fuel : nat) :
  (forall h, 0 <= h < n -> f h = Return (k <=? h)) ->
  forall i j, 0 <= i -> i <= k -> k <= j -> j <= n ->
    j - i <= Z.of_nat fuel ->
    sort.Search_loop fuel f i j = Return k.
Proof.
  intros Hf. induction fuel as [| fuel IH]; intros i j H0 H1 H2 H3 H4;
    cbn [sort.Search_loop].
  - f_equal. lia.
  - destruct (i <? j) eqn:E; [| f_equal; lia].
    apply Z.ltb_lt in E. pose proof (shiftr1_mid i j E) as Hm. cbv zeta.
    rewrite (Hf (Z.shiftr (i + j) 1)) by lia. cbn [bind].
    destruct (k <=? Z.shiftr (i + j) 1) eqn:Ek; cbn [negb]; apply IH; lia.
Qed.

Lemma sortedb_tail (w : gostring) (l : list gostring) :
  sortedb (w :: l) = true -> sortedb l = true.
Proof.
  destruct l as [| w' l]; [reflexivity |]. cbn [sortedb].
  intros H. apply andb_true_iff in H. tauto.
Qed.

Lemma sortedb_head (l : list gostring) :
  forall w, sortedb (w :: l) = true ->
            Forall (fun w' => string_ltb w w' = true) l.
Proof.
  induction l as [| w' l IH]; intros w H; [constructor |].
  cbn [sortedb] in H. apply andb_true_iff in H. destruct H as [Hw Hs].
  constructor; [exact Hw |].
  specialize (IH w' Hs). rewrite Forall_forall in *. intros x Hx.
  specialize (IH x Hx). unfold string_ltb in *.
  destruct (string_compare w w') eqn:E1; try discriminate.
  destruct (string_compare w' x) eqn:E2; try discriminate.
  rewrite (string_compare_lt_trans _ _ _ E1 E2). reflexivity.
Qed.

(** In a sorted list a word at a smaller index is the smaller word. *)
Lemma sortedb_nth (l : list gostring) (d : gostring) :
  sortedb l = true ->
  forall i j : nat, (i < j < length l)%nat ->
    string_ltb (nth i l d) (nth j l d) = true.
Proof.
  induction l as [| w l IH]; intros Hs i j Hij; [simpl in Hij; lia |].
  destruct j as [| j]; [lia |]. destruct i as [| i].
  - cbn [nth]. pose proof (sortedb_head l w Hs) as Hh.
    rewrite Forall_forall in Hh. apply Hh. apply nth_In.
    simpl in Hij. lia.
  - cbn [nth]. apply IH; [eapply sortedb_tail; eassumption |].
    simpl in Hij. lia.
Qed.

Lemma SearchStrings_test (a : list gostring) (x d : gostring) (h : Z) :
  0 <= h < len a ->
  (ai <- index a h ;; Return (string_geb ai x))
  = Return (string_geb (nth (Z.to_nat h) a d) x).
Proof. intros H. rewrite (index_in_range a h d H). reflexivity. Qed.

(** [stringBinarySearch] never panics: it returns -1 or the index of an
    occurrence of the word. *)
Lemma stringBinarySearch_total (slice : list gostring) (elem d : gostring) :
  exists r, stringBinarySearch slice elem = Return r /\
            (r = -1 \/ (0 <= r < len slice /\ nth (Z.to_nat r) slice d = elem)).
Proof.
  unfold stringBinarySearch, sort.SearchStrings, sort.Search.
  pose proof (len_nonneg slice) as Hn.
  destruct (Search_loop_range
              (fun i => ai <- index slice i ;; Return (string_geb ai elem))
              (len slice) (Z.to_nat (len slice))
              (fun h Hh => ex_intro _ _ (SearchStrings_test slice elem d h Hh))
              0 (len slice) ltac:(lia) ltac:(lia) ltac:(lia))
    as (idx & -> & Hidx).
  cbn [bind]. destruct (idx =? len slice) eqn:E; cbn [negb].
  - exists (-1). split; [reflexivity | left; reflexivity].
  - apply Z.eqb_neq in E.
    rewrite (index_in_range slice idx d) by lia. cbn [bind].
    destruct (string_eqb (nth (Z.to_nat idx) slice d) elem) eqn:Ee.
    + exists idx. split; [reflexivity | right].
      apply string_eqb_eq in Ee. split; [lia | exact Ee].
    + exists (-1). split; [reflexivity | left; reflexivity].
Qed.

(** A word that is not in the list is not found, sorted list or not. *)
Lemma stringBinarySearch_absent (slice : list gostring) (elem : gostring) :
  ~ In elem slice -> stringBinarySearch slice elem = Return (-1).
Proof.
  intros Hni.
  destruct (stringBinarySearch_total slice elem []) as (r & Hr & [-> | [Hb He]]);
    [exact Hr |].
  exfalso. apply Hni. rewrite <- He. apply nth_In. unfold len in Hb. lia.
Qed.

(** In a sorted list the word at index [k] is found at index [k]. *)
Lemma stringBinarySearch_found (slice : list gostring) (d : gostring) (k : Z) :
  sortedb slice = true -> 0 <= k < len slice ->
  stringBinarySearch slice (nth (Z.to_nat k) slice d) = Return k.
Proof.
  intros Hs Hk. unfold stringBinarySearch, sort.SearchStrings, sort.Search.
  rewrite (Search_loop_threshold _ (len slice) k).
  - cbn [bind]. destruct (k =? len slice) eqn:E; [lia |]. cbn [negb].
    rewrite (index_in_range slice k d Hk). cbn [bind].
    rewrite string_eqb_refl. reflexivity.
  - intros h Hh. rewrite (SearchStrings_test slice _ d h Hh). f_equal.
    destruct (k <=? h) eqn:E.
    + apply Z.leb_le in E. destruct (Z.eq_dec k h) as [-> | Hne].
      * apply string_geb_refl.
      * apply string_geb_of_gt. apply sortedb_nth; [exact Hs |].
        unfold len in *. lia.
    + apply Z.leb_gt in E. apply string_geb_of_lt.
      apply sortedb_nth; [exact Hs |]. unfold len in *. lia.
  - lia.
  - lia.
  - lia.
  - lia.
  - lia.
Qed.

(** ** Splitting and joining *)

Lemma Split_not_nil (s : gostring) (sep : byte) : strings.Split s sep <> [].
Proof.
  destruct s as [| c s]; cbn [strings.Split]; [discriminate |].
  destruct (byte_eqb c sep); [discriminate |].
  destruct (strings.Split s sep); discriminate.
Qed.

Lemma Split_no_space (w : gostring) :
  no_spaceb w = true -> strings.Split w chSpace = [w].
Proof.
  induction w as [| c w IH]; [reflexivity |].
  cbn [no_spaceb forallb strings.Split]. intros H.
  apply andb_true_iff in H. destruct H as [Hc Hw].
  apply negb_true_iff in Hc. rewrite Hc.
  unfold no_spaceb in IH. rewrite (IH Hw). reflexivity.
Qed.

Lemma Split_app_space (w rest : gostring) :
  no_spaceb w = true ->
  strings.Split (w ++ chSpace :: rest) chSpace = w :: strings.Split rest chSpace.
Proof.
  induction w as [| c w IH].
  - intros _. reflexivity.
  - cbn [no_spaceb forallb]. intros H.
    apply andb_true_iff in H. destruct H as [Hc Hw].
    apply negb_true_iff in Hc.
    cbn [app strings.Split]. rewrite Hc.
    unfold no_spaceb in IH. rewrite (IH Hw). reflexivity.
Qed.

(** Splitting the join of words without spaces gives the words back. *)
Lemma Split_Join (ws : list gostring) :
  ws <> [] -> forallb no_spaceb ws = true ->
  strings.Split (strings.Join ws [chSpace]) chSpace = ws.
Proof.
  induction ws as [| w ws IH]; [congruence |]. intros _ H.
  cbn [forallb] in H. apply andb_true_iff in H. destruct H as [Hw Hws].
  destruct ws as [| w' ws].
  - cbn [strings.Join]. apply Split_no_space. exact Hw.
  - cbn [strings.Join] in *. cbn [app].
    rewrite Split_app_space by exact Hw. f_equal.
    apply IH; [discriminate | exact Hws].
Qed.

Lemma Join_join_spaces (ws : list gostring) :
  strings.Join ws [chSpace] = join_spaces ws.
Proof.
  destruct ws as [| w ws]; [reflexivity |]. cbn [join_spaces].
  revert w. induction ws as [| w' ws IH]; intros w.
  - cbn [strings.Join flat_map]. rewrite app_nil_r. reflexivity.
  - cbn [strings.Join flat_map] in *. rewrite IH. reflexivity.
Qed.

(** ** Groups of a stream *)

Lemma firstn_add {A : Type} (a b : nat) (s : list A) :
  firstn (a + b) s = firstn a s ++ firstn b (skipn a s).
Proof.
  revert s. induction a as [| a IH]; intros s; [reflexivity |].
  destruct s as [| x s]; [rewrite skipn_nil, !firstn_nil; reflexivity |].
  cbn [Nat.add firstn skipn app]. rewrite IH. reflexivity.
Qed.

Lemma concat_groups {A : Type} (k n : nat) (s : list A) :
  concat (groups k n s) = firstn (n * k) s.
Proof.
  revert s. induction n as [| n IH]; intros s; [reflexivity |].
  cbn [groups concat Nat.mul]. rewrite IH, firstn_add. reflexivity.
Qed.

Lemma groups_map {A B : Type} (f : A -> B) (k n : nat) (s : list A) :
  groups k n (map f s) = map (map f) (groups k n s).
Proof.
  revert s. induction n as [| n IH]; intros s; [reflexivity |].
  cbn [groups map]. rewrite firstn_map, skipn_map, IH. reflexivity.
Qed.

Lemma groups_length {A : Type} (k n : nat) (s : list A) :
  length (groups k n s) = n.
Proof.
  revert s. induction n as [| n IH]; intros s; [reflexivity |].
  cbn [groups length]. rewrite IH. reflexivity.
Qed.

(** When the stream is long enough every group is full. *)
Lemma groups_full {A : Type} (k n : nat) (s : list A) :
  (n * k <= length s)%nat -> Forall (fun g => length g = k) (groups k n s).
Proof.
  revert s. induction n as [| n IH]; intros s H; [constructor |].
  cbn [groups]. constructor.
  - rewrite length_firstn. lia.
  - apply IH. rewrite length_skipn. lia.
Qed.

Lemma groups_bin (k n : nat) (s : gostring) :
  is_bin s -> Forall is_bin (groups k n s).
Proof.
  revert s. induction n as [| n IH]; intros s H; [constructor |].
  cbn [groups]. constructor; [apply is_bin_firstn, H |].
  apply IH, is_bin_skipn, H.
Qed.

(** ** Bits and their characters *)

Lemma bit_string_bin (bits : list bool) : is_bin (bit_string bits).
Proof.
  induction bits as [| b bits IH]; [constructor |].
  constructor; [destruct b; [right | left]; reflexivity | exact IH].
Qed.

Lemma bit_string_app (a b : list bool) :
  bit_string (a ++ b) = bit_string a ++ bit_string b.
Proof. apply map_app. Qed.

Lemma bit_string_len (bits : list bool) : len (bit_string bits) = len bits.
Proof. unfold len, bit_string. rewrite length_map. reflexivity. Qed.

Lemma bin_acc_bit_string (bits : list bool) (n : Z) :
  bin_acc (bit_string bits) n = fold_left (fun m b => 2 * m + Z.b2z b) bits n.
Proof.
  revert n. induction bits as [| b bits IH]; intros n; [reflexivity |].
  cbn [bit_string map bin_acc fold_left]. fold (bit_string bits).
  rewrite IH. destruct b; reflexivity.
Qed.

Lemma bin_value_bit_string (bits : list bool) :
  bin_value (bit_string bits) = bits_to_Z bits.
Proof. apply bin_acc_bit_string. Qed.

(** The eight characters [Sprintf("%.8b", b)] writes are the bits of [b],
    most significant first. *)
Lemma Sprintf_b_byte_bits (b : byte) :
  fmt.Sprintf_b 8 (byte_val b) = bit_string (byte_bits b).
Proof.
  destruct b as [b0 b1 b2 b3 b4 b5 b6 b7].
  destruct b0, b1, b2, b3, b4, b5, b6, b7; reflexivity.
Qed.

Lemma bytesToBinaryString_bits (slice : list byte) :
  bytesToBinaryString slice = bit_string (bits_of_bytes slice).
Proof.
  induction slice as [| b rest IH]; [reflexivity |].
  rewrite bytesToBinaryString_cons, IH, Sprintf_b_byte_bits.
  cbn [bits_of_bytes flat_map]. rewrite bit_string_app. reflexivity.
Qed.

Lemma bits_of_bytes_length (bs : list byte) :
  length (bits_of_bytes bs) = (8 * length bs)%nat.
Proof.
  induction bs as [| b bs IH]; [reflexivity |].
  cbn [bits_of_bytes flat_map]. rewrite length_app. fold (bits_of_bytes bs).
  rewrite IH. cbn [byte_bits map length]. lia.
Qed.

(** ** The helpers, in both directions *)

Lemma byte_val_of_Z (v : Z) : 0 <= v < 256 -> byte_val (byte_of_Z v) = v.
Proof.
  intros H. unfold byte_val, byte_of_Z. rewrite Z.mod_small by lia.
  rewrite N_ascii_embedding by lia. lia.
Qed.

(** On a binary string the loop of [binaryStringToBytes] produces bytes
    whose binary string is the part of the input it has read. *)
Lemma binaryStringToBytes_loop_inverse (binStr : gostring) :
  is_bin binStr ->
  forall (iters : nat) (i : Z) (acc : list byte),
    0 <= i -> i + 8 * Z.of_nat iters <= len binStr ->
    exists bytes,
      binaryStringToBytes_loop iters binStr i acc = Return (acc ++ bytes, None)
      /\ bytesToBinaryString bytes
         = firstn (8 * iters) (skipn (Z.to_nat i) binStr).
Proof.
  intros Hbin. induction iters as [| iters IH]; intros i acc Hi Hb.
  - exists []. rewrite app_nil_r. split; reflexivity.
  - cbn [binaryStringToBytes_loop].
    rewrite subslice_in_range by lia. cbn [bind].
    replace (Z.to_nat (i + 8 - i)) with 8%nat by lia.
    set (chunk := firstn 8 (skipn (Z.to_nat i) binStr)).
    assert (Hcb : is_bin chunk) by (apply is_bin_firstn, is_bin_skipn, Hbin).
    assert (Hcl : len chunk = 8).
    { unfold chunk, len. rewrite length_firstn, length_skipn.
      unfold len in Hb. lia. }
    rewrite (ParseInt_bin chunk Hcb ltac:(lia)).
    pose proof (bin_value_bounds chunk) as Hv. rewrite Hcl in Hv.
    change (2 ^ 8) with 256 in Hv.
    destruct (IH (i + 8) (acc ++ [byte_of_Z (bin_value chunk)])
                ltac:(lia) ltac:(lia)) as (bytes & Hr & Hs).
    exists (byte_of_Z (bin_value chunk) :: bytes). split.
    + rewrite Hr, <- app_assoc. reflexivity.
    + rewrite bytesToBinaryString_cons, Hs, byte_val_of_Z by exact Hv.
      rewrite <- Hcl at 1. rewrite (Sprintf_b_of_bin chunk Hcb ltac:(lia)).
      replace (8 * S iters)%nat with (8 + 8 * iters)%nat by lia.
      rewrite firstn_add, skipn_skipn. fold chunk.
      replace (8 + Z.to_nat i)%nat with (Z.to_nat (i + 8)) by lia.
      reflexivity.
Qed.

(** [binaryStringToBytes] on a binary string of whole bytes: the bytes it
    returns have the string as their binary string. *)
Lemma binaryStringToBytes_inverse (binStr : gostring) :
  is_bin binStr -> Z.rem (len binStr) 8 = 0 ->
  exists bytes,
    binaryStringToBytes binStr = Return (bytes, None) /\
    bytesToBinaryString bytes = binStr.
Proof.
  intros Hbin Hr. unfold binaryStringToBytes. rewrite Hr. cbn [Z.eqb negb].
  pose proof (len_nonneg binStr) as Hn.
  destruct (binaryStringToBytes_loop_inverse binStr Hbin
              (Z.to_nat (Z.quot (len binStr) 8)) 0 [] ltac:(lia) ltac:(lia))
    as (bytes & Hb & Hs).
  exists bytes. split; [exact Hb |]. rewrite Hs. cbn [Z.to_nat skipn].
  apply firstn_all2. unfold len in *. lia.
Qed.

(** X1: [bytesToBinaryString] writes eight characters per byte, each [0]
    or [1], and [binaryStringToBytes] converts the string back to the
    bytes, without an error, for every byte slice (the empty one too). *)
Theorem binary_codec_roundtrip (slice : list byte) :
  len (bytesToBinaryString slice) = 8 * len slice /\
  is_bin (bytesToBinaryString slice) /\
  binaryStringToBytes (bytesToBinaryString slice) = Return (slice, None).
Proof.
  split; [apply bytesToBinaryString_len |].
  split; [apply bytesToBinaryString_bin |].
  apply binaryStringToBytes_bytesToBinaryString.
Qed.

(** X2: on a string of [0] and [1] whose length is a multiple of 8,
    [binaryStringToBytes] returns bytes whose [bytesToBinaryString] is the
    string: the two conversions are inverse to each other. *)
Theorem binary_codec_inverse (binStr : gostring) :
  is_bin binStr -> Z.rem (len binStr) 8 = 0 ->
  exists bytes,
    binaryStringToBytes binStr = Return (bytes, None) /\
    bytesToBinaryString bytes = binStr.
Proof. apply binaryStringToBytes_inverse. Qed.

(** X3: on any slice of strings, sorted or not, empty or not,
    [stringBinarySearch] does not panic; it returns -1 or an index of the
    slice that holds the searched string, and -1 when the string is not in
    the slice. *)
Theorem stringBinarySearch_sound (slice : list gostring) (elem : gostring) :
  exists r,
    stringBinarySearch slice elem = Return r /\
    (r = -1 \/ (0 <= r < len slice /\ nth (Z.to_nat r) slice [] = elem)) /\
    (~ In elem slice -> r = -1).
Proof.
  destruct (stringBinarySearch_total slice elem []) as (r & Hr & Hc).
  exists r. split; [exact Hr |]. split; [exact Hc |].
  intros Hni. pose proof (stringBinarySearch_absent slice elem Hni) as Ha.
  congruence.
Qed.

(** X4: on a slice in strictly ascending order [stringBinarySearch]
    returns, for each position, that position when asked for the string
    it holds; so a string of the slice is always found, and the result is
    -1 exactly for the strings that are not in the slice. *)
Theorem stringBinarySearch_complete (slice : list gostring) (elem : gostring) :
  sortedb slice = true ->
  (forall k, 0 <= k < len slice ->
             stringBinarySearch slice (nth (Z.to_nat k) slice []) = Return k) /\
  (In elem slice <->
   exists k, stringBinarySearch slice elem = Return k /\ 0 <= k < len slice) /\
  (~ In elem slice <-> stringBinarySearch slice elem = Return (-1)).
Proof.
  intros Hs.
  assert (Hfound : forall k, 0 <= k < len slice ->
             stringBinarySearch slice (nth (Z.to_nat k) slice []) = Return k)
    by (intros k Hk; apply stringBinarySearch_found; assumption).
  assert (Hin : In elem slice ->
           exists k, stringBinarySearch slice elem = Return k /\
                     0 <= k < len slice).
  { intros H. destruct (In_nth slice elem [] H) as (n & Hn & He).
    exists (Z.of_nat n). assert (Hk : 0 <= Z.of_nat n < len slice)
      by (unfold len; lia).
    split; [| exact Hk]. rewrite <- He at 1.
    rewrite <- (Nat2Z.id n) at 1. apply Hfound, Hk. }
  split; [exact Hfound |]. split; [split; [exact Hin |] | split].
  - intros (k & Hr & Hk).
    destruct (stringBinarySearch_total slice elem []) as (r & Hr' & [-> | [_ He]]).
    + rewrite Hr in Hr'. injection Hr' as ->. lia.
    + rewrite <- He. apply nth_In. rewrite Hr in Hr'. injection Hr' as <-.
      unfold len in Hk. lia.
  - apply stringBinarySearch_absent.
  - intros Hr Hi. destruct (Hin Hi) as (k & Hk & Hb).
    rewrite Hr in Hk. injection Hk as <-. lia.
Qed.

Lemma Join_Split (s : gostring) (sep : byte) :
  strings.Join (strings.Split s sep) [sep] = s.
Proof.
  induction s as [| c s IH]; [reflexivity |].
  cbn [strings.Split]. destruct (byte_eqb c sep) eqn:E.
  - apply byte_eqb_eq in E. subst c.
    destruct (strings.Split s sep) as [| w ws] eqn:Es;
      [exfalso; exact (Split_not_nil s sep Es) |].
    cbn [strings.Join app] in *. rewrite IH. reflexivity.
  - destruct (strings.Split s sep) as [| w ws] eqn:Es;
      [exfalso; exact (Split_not_nil s sep Es) |].
    destruct ws as [| w' ws]; cbn [strings.Join app] in *;
      rewrite <- IH; reflexivity.
Qed.

(** The groups of a concatenation of pieces of one length are the pieces. *)
Lemma groups_flat_map {A B : Type} (f : A -> list B) (k : nat) (l : list A) :
  Forall (fun a => length (f a) = k) l ->
  groups k (length l) (flat_map f l) = map f l.
Proof.
  induction 1 as [| a l Ha Hl IH]; [reflexivity |].
  cbn [length groups flat_map map].
  rewrite firstn_app, <- Ha, firstn_all, Nat.sub_diag, firstn_0, app_nil_r.
  rewrite skipn_app, skipn_all, Nat.sub_diag, skipn_0, app_nil_l.
  rewrite Ha, IH. reflexivity.
Qed.

(** ** [binaryStringToBytes], group by group *)

(** A digit of base 2 is the character [0] or the character [1]. *)
Lemma digit_two_inv (c : byte) (d : Z) :
  strconv.digit 2 c = Some d -> c = ch0 \/ c = ch1.
Proof.
  intros H. pose proof (digit_two c d H) as Hd.
  unfold strconv.digit in H.
  destruct ((0 <=? byte_val c - byte_val ch0) &&
            (byte_val c - byte_val ch0 <=? 9) &&
            (byte_val c - byte_val ch0 <? 2)); [| discriminate].
  injection H as H. change (byte_val ch0) with 48 in H.
  rewrite <- (byte_of_Z_val c).
  assert (Hc : byte_val c = 48 \/ byte_val c = 49) by lia.
  destruct Hc as [-> | ->]; [left | right]; reflexivity.
Qed.

(** A string [ParseUint] reads without an error is a binary string. *)
Lemma ParseUint_loop_ok_bin (s : gostring) :
  forall n v, strconv.ParseUint_loop s 2 65535 n = (v, None) -> is_bin s.
Proof.
  induction s as [| c s IH]; intros n v H; [constructor |].
  cbn [strconv.ParseUint_loop] in H.
  destruct (strconv.digit 2 c) as [d |] eqn:Ed; [| discriminate].
  destruct (2 ^ 64 / 2 + 1 <=? n); [discriminate |].
  destruct ((2 ^ 64 <=? n * 2 + d) || (65535 <? n * 2 + d)); [discriminate |].
  constructor; [exact (digit_two_inv c d Ed) | exact (IH _ _ H)].
Qed.

(** [ParseInt] on a sign followed by at most 14 binary digits. *)
Lemma ParseInt_signed_bin (sign : byte) (rest : gostring) :
  sign = chPlus \/ sign = chMinus -> is_bin rest -> 0 < len rest <= 14 ->
  snd (strconv.ParseInt (sign :: rest) 2 16) = None.
Proof.
  intros Hs Hb Hl. unfold strconv.ParseInt. cbv zeta.
  destruct rest as [| c rest]; [unfold len in Hl; simpl in Hl; lia |].
  pose proof (Z.pow_le_mono_r 2 (len (c :: rest)) 14 ltac:(lia) ltac:(lia)) as Hp.
  change (2 ^ 14) with 16384 in Hp.
  pose proof (bin_value_bounds (c :: rest)) as Hv.
  assert (Hu : strconv.ParseUint (c :: rest) 2 16 = (bin_value (c :: rest), None)).
  { unfold strconv.ParseUint. change (2 ^ 16 - 1) with 65535.
    rewrite ParseUint_loop_bin; [reflexivity | assumption | lia | lia]. }
  change (2 ^ (16 - 1)) with 32768.
  destruct Hs as [-> | ->].
  - change (byte_eqb chPlus chPlus) with true.
    change (byte_eqb chPlus chMinus) with false.
    cbn [orb negb andb]. cbv iota. rewrite Hu.
    destruct (32768 <=? bin_value (c :: rest)) eqn:E1; [lia | reflexivity].
  - change (byte_eqb chMinus chPlus) with false.
    change (byte_eqb chMinus chMinus) with true.
    cbn [orb negb andb]. cbv iota. rewrite Hu.
    destruct (32768 <? bin_value (c :: rest)) eqn:E2; [lia | reflexivity].
Qed.

(** A group of eight characters is read by [ParseInt(_, 2, 16)] exactly
    when it is eight binary digits, or a sign and seven binary digits. *)
Lemma group_parses_iff (g : gostring) :
  len g = 8 ->
  (group_parses g = true <->
   is_bin g \/
   exists sign rest,
     g = sign :: rest /\ (sign = chPlus \/ sign = chMinus) /\ is_bin rest).
Proof.
  intros Hl. unfold group_parses. split.
  - destruct g as [| c s]; [unfold len in Hl; simpl in Hl; lia |].
    rewrite len_cons in Hl. unfold strconv.ParseInt. cbv zeta.
    destruct (byte_eqb c chPlus || byte_eqb c chMinus) eqn:Esign.
    + unfold strconv.ParseUint.
      destruct s as [| c' s']; [unfold len in Hl; simpl in Hl; lia |].
      change (2 ^ 16 - 1) with 65535.
      pose proof (Z.pow_le_mono_r 2 (len (c' :: s')) 15 ltac:(lia) ltac:(lia))
        as Hp. change (2 ^ 15) with 32768 in Hp.
      destruct (ParseUint_loop_short (c' :: s') 0 ltac:(lia) ltac:(lia))
        as [(v & Hv & _) | Hv]; rewrite Hv.
      * intros _. right. exists c, (c' :: s'). split; [reflexivity |].
        split; [| exact (ParseUint_loop_ok_bin _ _ _ Hv)].
        apply orb_true_iff in Esign. rewrite !byte_eqb_eq in Esign. exact Esign.
      * cbn. discriminate.
    + unfold strconv.ParseUint. change (2 ^ 16 - 1) with 65535.
      pose proof (Z.pow_le_mono_r 2 (len (c :: s)) 15 ltac:(lia)
                    ltac:(rewrite len_cons; lia)) as Hp.
      change (2 ^ 15) with 32768 in Hp.
      destruct (ParseUint_loop_short (c :: s) 0 ltac:(lia) ltac:(lia))
        as [(v & Hv & _) | Hv]; rewrite Hv.
      * intros _. left. exact (ParseUint_loop_ok_bin _ _ _ Hv).
      * cbn. discriminate.
  - intros [Hb | (sign & rest & -> & Hs & Hb)].
    + rewrite (ParseInt_bin g Hb ltac:(lia)). reflexivity.
    + rewrite len_cons in Hl.
      rewrite (ParseInt_signed_bin sign rest Hs Hb ltac:(lia)). reflexivity.
Qed.

(** The loop of [binaryStringToBytes] in one equation: it reads the
    groups of eight characters from left to right, and returns the bytes
    of the groups when [ParseInt] reads every group, the syntax error of
    [ParseInt] otherwise. *)
Lemma binaryStringToBytes_loop_groups (binStr : gostring) (iters : nat) :
  forall (i : Z) (acc : list byte),
    0 <= i -> i + 8 * Z.of_nat iters <= len binStr ->
    binaryStringToBytes_loop iters binStr i acc
    = (if forallb group_parses (groups 8 iters (skipn (Z.to_nat i) binStr))
       then Return (acc ++ map group_byte
                             (groups 8 iters (skipn (Z.to_nat i) binStr)),
                    None)
       else Return ([], Some (NumError ErrSyntax))).
Proof.
  induction iters as [| iters IH]; intros i acc Hi Hb.
  - cbn [binaryStringToBytes_loop groups forallb map]. rewrite app_nil_r.
    reflexivity.
  - cbn [binaryStringToBytes_loop groups forallb map].
    rewrite subslice_in_range by lia. cbn [bind].
    replace (Z.to_nat (i + 8 - i)) with 8%nat by lia.
    set (chunk := firstn 8 (skipn (Z.to_nat i) binStr)).
    assert (Hcl : len chunk = 8).
    { unfold chunk, len. rewrite length_firstn, length_skipn.
      unfold len in Hb. lia. }
    rewrite skipn_skipn.
    replace (8 + Z.to_nat i)%nat with (Z.to_nat (i + 8)) by lia.
    unfold group_parses at 1. unfold group_byte at 1.
    destruct (ParseInt_short chunk ltac:(lia)) as [[v Hv] | Hv]; rewrite Hv;
      cbn [fst snd andb]; [| reflexivity].
    rewrite IH by lia.
    destruct (forallb group_parses
                (groups 8 iters (skipn (Z.to_nat (i + 8)) binStr)));
      [| reflexivity].
    rewrite <- app_assoc. reflexivity.
Qed.

(** [binaryStringToBytes] on a string whose length is a multiple of 8. *)
Lemma binaryStringToBytes_groups (binStr : gostring) :
  Z.rem (len binStr) 8 = 0 ->
  binaryStringToBytes binStr
  = (if forallb group_parses (byte_groups binStr)
     then Return (map group_byte (byte_groups binStr), None)
     else Return ([], Some (NumError ErrSyntax))).
Proof.
  intros Hr. unfold binaryStringToBytes, byte_groups. rewrite Hr.
  cbn [Z.eqb negb]. pose proof (len_nonneg binStr) as Hn.
  rewrite binaryStringToBytes_loop_groups by lia. reflexivity.
Qed.

(** C9 (amended): [binaryStringToBytes] returns [ErrBinaryString]
    exactly when the length of the string is not a multiple of 8.  When
    the length is a multiple of 8 the call succeeds exactly when
    [strconv.ParseInt] reads each group of eight characters as a base-2
    integer, and then it returns the bytes of the groups, one byte per
    eight characters; otherwise it returns the syntax error of
    [strconv.ParseInt].  A group is read exactly when it is eight binary
    digits, or a sign and seven binary digits, so every string of [0] and
    [1] is converted. *)
Theorem binaryStringToBytes_result (binStr : gostring) :
  (Z.rem (len binStr) 8 <> 0 <->
   binaryStringToBytes binStr = Return ([], Some ErrBinaryString)) /\
  (Z.rem (len binStr) 8 = 0 ->
   forallb group_parses (byte_groups binStr) = true ->
   binaryStringToBytes binStr
     = Return (map group_byte (byte_groups binStr), None) /\
   len binStr = 8 * len (map group_byte (byte_groups binStr))) /\
  (Z.rem (len binStr) 8 = 0 ->
   forallb group_parses (byte_groups binStr) = false ->
   binaryStringToBytes binStr = Return ([], Some (NumError ErrSyntax))) /\
  (forall g, In g (byte_groups binStr) ->
     (group_parses g = true <->
      is_bin g \/
      exists sign rest,
        g = sign :: rest /\ (sign = chPlus \/ sign = chMinus) /\ is_bin rest)) /\
  (Z.rem (len binStr) 8 = 0 -> is_bin binStr ->
   exists bytes,
     binaryStringToBytes binStr = Return (bytes, None) /\
     len binStr = 8 * len bytes).
Proof.
  pose proof (len_nonneg binStr) as Hn.
  split; [| split; [| split; [| split]]].
  - split.
    + intros Hr. unfold binaryStringToBytes.
      destruct (Z.rem (len binStr) 8 =? 0) eqn:E; [lia | reflexivity].
    + intros He Hr. rewrite (binaryStringToBytes_groups binStr Hr) in He.
      destruct (forallb group_parses (byte_groups binStr)); discriminate.
  - intros Hr Hall. rewrite (binaryStringToBytes_groups binStr Hr), Hall.
    split; [reflexivity |].
    assert (Hgl : length (byte_groups binStr)
                  = Z.to_nat (Z.quot (len binStr) 8)) by apply groups_length.
    unfold len at 2. rewrite length_map, Hgl. lia.
  - intros Hr Hall. rewrite (binaryStringToBytes_groups binStr Hr), Hall.
    reflexivity.
  - intros g Hg. apply group_parses_iff.
    destruct (Z.eq_dec (Z.rem (len binStr) 8) 0) as [Hr | Hr].
    + pose proof (groups_full 8 (Z.to_nat (Z.quot (len binStr) 8)) binStr
                    ltac:(unfold len in *; lia)) as Hf.
      rewrite Forall_forall in Hf. specialize (Hf g Hg).
      unfold len. rewrite Hf. reflexivity.
    + pose proof (groups_full 8 (Z.to_nat (Z.quot (len binStr) 8)) binStr
                    ltac:(unfold len in *; lia)) as Hf.
      rewrite Forall_forall in Hf. specialize (Hf g Hg).
      unfold len. rewrite Hf. reflexivity.
  - apply binaryStringToBytes_of_bin.
Qed.

(** C9, as stated, fails: the length of this string is a multiple of 8
    and the call returns an error, the syntax error of [ParseInt]. *)
Lemma binaryStringToBytes_not_total :
  Z.rem (len (str "01000002")) 8 = 0 /\
  binaryStringToBytes (str "01000002")
    = Return ([], Some (NumError ErrSyntax)).
Proof. split; reflexivity. Qed.

(** ** The package *)

Lemma validateWordsNum_valid (n : Z) :
  In n [12; 15; 18; 21; 24] -> validateWordsNum n = None.
Proof.
  intros H. repeat (destruct H as [<- | H]; [reflexivity |]). destruct H.
Qed.

Lemma map_get_wordsNumMap (n : Z) :
  map_get wordsNumMap n = true -> In n [12; 15; 18; 21; 24].
Proof.
  unfold map_get, wordsNumMap. cbn [find fst snd].
  unfold WordsNum12, WordsNum15, WordsNum18, WordsNum21, WordsNum24.
  destruct (12 =? n) eqn:E12; [apply Z.eqb_eq in E12; subst; simpl; auto |].
  destruct (15 =? n) eqn:E15; [apply Z.eqb_eq in E15; subst; simpl; auto |].
  destruct (18 =? n) eqn:E18; [apply Z.eqb_eq in E18; subst; simpl; auto |].
  destruct (21 =? n) eqn:E21; [apply Z.eqb_eq in E21; subst; simpl; auto |].
  destruct (24 =? n) eqn:E24; [apply Z.eqb_eq in E24; subst; simpl; auto 6 |].
  discriminate.
Qed.

Lemma validateWordsNum_cases (n : Z) :
  (In n [12; 15; 18; 21; 24] /\ validateWordsNum n = None) \/
  (~ In n [12; 15; 18; 21; 24] /\ validateWordsNum n = Some ErrWordsNum).
Proof.
  unfold validateWordsNum. destruct (map_get wordsNumMap n) eqn:E.
  - left. split; [apply map_get_wordsNumMap, E | reflexivity].
  - right. split; [| reflexivity]. intros H.
    apply validateWordsNum_valid in H. unfold validateWordsNum in H.
    rewrite E in H. discriminate.
Qed.

Section properties.

Variable wordsListEn : list gostring.
Variable sha256_Sum256 : list byte -> list byte.
Variable Hash : Type.
Variable sha512_New : Hash.
Variable pbkdf2_Key : list byte -> list byte -> Z -> Z -> Hash -> list byte.

(** What the specification says of the word list: exactly 2048 words in
    strictly ascending order; a word holds no space. *)
Hypothesis wordsListEn_len : len wordsListEn = 2048.
Hypothesis wordsListEn_sorted : sortedb wordsListEn = true.
Hypothesis wordsListEn_no_space : forallb no_spaceb wordsListEn = true.

(** [sha256.Sum256] returns a [[32]byte]; [pbkdf2.Key] returns [keyLen]
    bytes. *)
Hypothesis Sum256_len : forall message, len (sha256_Sum256 message) = 32.
Hypothesis pbkdf2_Key_len :
  forall password salt iter keyLen h,
    0 <= keyLen -> len (pbkdf2_Key password salt iter keyLen h) = keyLen.

(** Inside the section the functions of the package are read at the
    word list and the library functions above. *)
Ltac head_of t := lazymatch t with ?f _ => head_of f | _ => t end.
Tactic Notation "unfold_head" constr(t) :=
  let h := head_of t in unfold h.
Tactic Notation "unfold_head" constr(t) "in" hyp(H) :=
  let h := head_of t in unfold h in H.

Local Abbreviation entropyChecksumBinStr := (entropyChecksumBinStr sha256_Sum256).
Local Abbreviation MnemonicFromEntropy :=
  (MnemonicFromEntropy wordsListEn sha256_Sum256).
Local Abbreviation getBinaryStrings := (getBinaryStrings wordsListEn).
Local Abbreviation ToEntropy := (ToEntropy wordsListEn sha256_Sum256).
Local Abbreviation Validate := (Validate wordsListEn sha256_Sum256).
Local Abbreviation IsValid := (IsValid wordsListEn sha256_Sum256).
Local Abbreviation GenerateSeed :=
  (GenerateSeed wordsListEn sha256_Sum256 Hash sha512_New pbkdf2_Key).
Local Abbreviation checksum_bits := (checksum_bits sha256_Sum256).
Local Abbreviation mnemonic_bits := (mnemonic_bits sha256_Sum256).
Local Abbreviation group_word := (group_word wordsListEn).
Local Abbreviation spec_mnemonic := (spec_mnemonic wordsListEn sha256_Sum256).
Local Abbreviation word_index := (word_index wordsListEn).
Local Abbreviation chunk_word := (chunk_word wordsListEn).
Local Abbreviation bit_stream := (bit_stream wordsListEn).

(** *** The checksum *)

Lemma hashStr_len (slice : list byte) :
  len (bytesToBinaryString (sha256_Sum256 slice)) = 256.
Proof. rewrite bytesToBinaryString_len, Sum256_len. reflexivity. Qed.

(** Up to 1027 bytes the digest has the [len/4] bits the checksum takes. *)
Lemma entropyChecksumBinStr_short (slice : list byte) :
  Z.quot (len slice) 4 <= 256 ->
  entropyChecksumBinStr slice = Return (bit_string (checksum_bits slice)) /\
  len (bit_string (checksum_bits slice)) = Z.quot (len slice) 4.
Proof using Sum256_len.
  intros Hle. pose proof (len_nonneg slice) as Hn.
  pose proof (hashStr_len slice) as Hh.
  assert (Hq : Z.to_nat (Z.quot (len slice) 4 - 0) = (length slice / 4)%nat)
    by (rewrite Z.sub_0_r; apply (to_nat_quot (length slice) 4); lia).
  split.
  - unfold_head entropyChecksumBinStr. cbv zeta.
    rewrite subslice_in_range by lia. f_equal.
    rewrite Hq. cbn [Z.to_nat skipn]. unfold_head checksum_bits.
    rewrite bytesToBinaryString_bits. unfold bit_string.
    apply firstn_map.
  - rewrite bit_string_len. unfold_head checksum_bits. unfold len.
    rewrite length_firstn, bits_of_bytes_length.
    pose proof (Sum256_len slice) as Hs.
    pose proof (of_nat_div (length slice) 4 ltac:(lia)) as Hd.
    unfold len in Hs, Hle, Hn |- *. change (Z.of_nat 4) with 4 in Hd. lia.
Qed.

(** Beyond 1027 bytes the digest has fewer than [len/4] bits and the
    slice expression [hashStr[:chksumBitLen]] panics. *)
Lemma entropyChecksumBinStr_long (slice : list byte) :
  256 < Z.quot (len slice) 4 -> entropyChecksumBinStr slice = Panic.
Proof.
  intros H. unfold_head entropyChecksumBinStr. cbv zeta.
  apply subslice_out_of_range. rewrite hashStr_len. exact H.
Qed.

(** C2: for every entropy, a byte sequence of 128, 160, 192, 224 or 256
    bits, the checksum string [entropyChecksumBinStr] returns is the
    first [len/4] bits, most significant first, of the SHA-256 digest of
    the bytes. *)
Theorem entropyChecksumBinStr_first_bits (slice : list byte) :
  In (len slice * 8) [128; 160; 192; 224; 256] ->
  entropyChecksumBinStr slice = Return (bit_string (checksum_bits slice)) /\
  len (bit_string (checksum_bits slice)) = Z.quot (len slice) 4.
Proof using Sum256_len.
  intros H. apply entropyChecksumBinStr_short. cbn [In] in H. lia.
Qed.


(** *** Looking words up *)

Lemma word_index_spec (word : gostring) :
  stringBinarySearch wordsListEn word = Return (word_index word).
Proof.
  unfold_head word_index.
  destruct (stringBinarySearch_total wordsListEn word []) as (r & -> & _).
  reflexivity.
Qed.

Lemma word_index_range (word : gostring) :
  word_index word = -1 \/ 0 <= word_index word < len wordsListEn.
Proof.
  unfold_head word_index.
  destruct (stringBinarySearch_total wordsListEn word []) as (r & -> & [-> | [H _]]);
    [left; reflexivity | right; exact H].
Qed.

Lemma word_index_absent (word : gostring) :
  ~ In word wordsListEn -> word_index word = -1.
Proof.
  intros H. unfold_head word_index.
  rewrite (stringBinarySearch_absent _ _ H). reflexivity.
Qed.

Lemma word_index_nth (k : Z) :
  0 <= k < len wordsListEn ->
  word_index (nth (Z.to_nat k) wordsListEn []) = k.
Proof.
  intros H. unfold_head word_index.
  rewrite (stringBinarySearch_found wordsListEn [] k wordsListEn_sorted H).
  reflexivity.
Qed.

(** *** The decoder *)

(** The loop over the words either finds every word and appends the
    eleven-digit groups to the buffer, or meets a word the search does not
    find and returns [ErrInvalidWord]. *)
Lemma getBinaryStrings_loop_cases (wordsList : list gostring) :
  forall strBuf,
    (Forall (fun word => word_index word <> -1) wordsList /\
     getBinaryStrings_loop wordsListEn wordsList strBuf
       = Return (inl (strBuf ++ bit_stream wordsList))) \/
    (Exists (fun word => word_index word = -1) wordsList /\
     getBinaryStrings_loop wordsListEn wordsList strBuf
       = Return (inr ErrInvalidWord)).
Proof.
  induction wordsList as [| word rest IH]; intros strBuf.
  - left. split; [constructor |]. cbn. rewrite app_nil_r. reflexivity.
  - cbn [getBinaryStrings_loop]. rewrite word_index_spec. cbn [bind].
    destruct (word_index word =? -1) eqn:E.
    + right. split; [| reflexivity]. apply Exists_cons_hd.
      apply Z.eqb_eq. exact E.
    + apply Z.eqb_neq in E.
      destruct (IH (strBuf ++ fmt.Sprintf_b 11 (word_index word)))
        as [[Hall Hr] | [Hex Hr]].
      * left. split; [constructor; assumption |]. rewrite Hr.
        unfold_head bit_stream. cbn [flat_map].
        rewrite <- app_assoc. reflexivity.
      * right. split; [apply Exists_cons_tl, Hex | exact Hr].
Qed.

(** The three outcomes of [getBinaryStrings]; it never panics. *)
Lemma getBinaryStrings_cases (mnemonic : Mnemonic) :
  let wordsList := strings.Split (Words mnemonic) chSpace in
  let stream := bit_stream wordsList in
  let chksumIdx := len stream - Z.quot (len stream) 33 in
  (~ In (len wordsList) [12; 15; 18; 21; 24] /\
   getBinaryStrings mnemonic = Return ([], [], Some ErrWordsNum)) \/
  (In (len wordsList) [12; 15; 18; 21; 24] /\
   Exists (fun word => word_index word = -1) wordsList /\
   getBinaryStrings mnemonic = Return ([], [], Some ErrInvalidWord)) \/
  (In (len wordsList) [12; 15; 18; 21; 24] /\
   Forall (fun word => word_index word <> -1) wordsList /\
   getBinaryStrings mnemonic
     = Return (firstn (Z.to_nat chksumIdx) stream,
               skipn (Z.to_nat chksumIdx) stream, None)).
Proof.
  intros wordsList stream chksumIdx. unfold_head getBinaryStrings.
  fold wordsList.
  destruct (validateWordsNum_cases (len wordsList)) as [[Hin ->] | [Hni ->]];
    [| left; split; [exact Hni | reflexivity]].
  right.
  destruct (getBinaryStrings_loop_cases wordsList []) as [[Hall ->] | [Hex ->]];
    cbn [bind app]; [right | left; split; [exact Hin | split; [exact Hex | reflexivity]]].
  split; [exact Hin |]. split; [exact Hall |].
  fold stream. fold chksumIdx.
  pose proof (len_nonneg stream) as Hn.
  assert (Hc : 0 <= chksumIdx <= len stream) by (subst chksumIdx; lia).
  rewrite !subslice_in_range by lia. cbn [bind].
  rewrite Z.sub_0_r. cbn [Z.to_nat skipn].
  replace (Z.to_nat (len stream - chksumIdx))
    with (length (skipn (Z.to_nat chksumIdx) stream))
    by (rewrite length_skipn; unfold len in *; lia).
  rewrite firstn_all. reflexivity.
Qed.

Lemma Forall_found (wordsList : list gostring) :
  (forall word, In word wordsList -> word_index word <> -1) ->
  ~ Exists (fun word => word_index word = -1) wordsList.
Proof.
  intros H Hex. apply Exists_exists in Hex. destruct Hex as (w & Hw & He).
  exact (H w Hw He).
Qed.

(** The outcome of [getBinaryStrings] when the count is valid and every
    word is found. *)
Lemma getBinaryStrings_found (mnemonic : Mnemonic) :
  let wordsList := strings.Split (Words mnemonic) chSpace in
  let stream := bit_stream wordsList in
  let chksumIdx := len stream - Z.quot (len stream) 33 in
  validateWordsNum (len wordsList) = None ->
  (forall word, In word wordsList -> word_index word <> -1) ->
  getBinaryStrings mnemonic
    = Return (firstn (Z.to_nat chksumIdx) stream,
              skipn (Z.to_nat chksumIdx) stream, None).
Proof.
  intros wordsList stream chksumIdx Hv Hf.
  destruct (getBinaryStrings_cases mnemonic) as [[Hni _] | [(_ & Hex & _) | (_ & _ & Hr)]].
  - fold wordsList in Hni.
    destruct (validateWordsNum_cases (len wordsList)) as [[Hin _] | [_ He]];
      [contradiction | congruence].
  - exfalso. exact (Forall_found _ Hf Hex).
  - exact Hr.
Qed.

(** C4: when the word count is valid and every word is found, the
    decoder splits the rebuilt bit stream into a trailing checksum part of
    [total/33] bits and a leading entropy part of [total - total/33]
    bits. *)
Theorem getBinaryStrings_split (mnemonic : Mnemonic) :
  let wordsList := strings.Split (Words mnemonic) chSpace in
  let stream := bit_stream wordsList in
  let total := len stream in
  validateWordsNum (len wordsList) = None ->
  (forall word, In word wordsList -> word_index word <> -1) ->
  exists entropyPart chksumPart,
    getBinaryStrings mnemonic = Return (entropyPart, chksumPart, None) /\
    entropyPart ++ chksumPart = stream /\
    len chksumPart = Z.quot total 33 /\
    len entropyPart = total - Z.quot total 33.
Proof.
  intros wordsList stream total Hv Hf.
  pose proof (getBinaryStrings_found mnemonic Hv Hf) as Hr.
  fold wordsList in Hr. fold stream in Hr. fold total in Hr.
  pose proof (len_nonneg stream) as Hn. fold total in Hn.
  eexists. eexists. split; [exact Hr |].
  split; [apply firstn_skipn |].
  unfold len. rewrite length_skipn, length_firstn.
  unfold total, len in *. lia.
Qed.

(** *** Decoding, validation and the seed *)

(** [Validate] runs the steps of [ToEntropy] and keeps the error. *)
Lemma Validate_ToEntropy (mnemonic : Mnemonic) :
  Validate mnemonic = (r <- ToEntropy mnemonic ;; Return (snd r)).
Proof.
  unfold_head Validate. unfold_head ToEntropy.
  destruct (getBinaryStrings mnemonic) as [[[e c] [err |]] |]; cbn [bind];
    try reflexivity.
  destruct (binaryStringToBytes e) as [[entropy err] |]; cbn [bind];
    try reflexivity.
  destruct (entropyChecksumBinStr entropy) as [chksumComp |]; cbn [bind];
    try reflexivity.
  destruct (negb (string_eqb chksumComp c)); reflexivity.
Qed.

Lemma GenerateSeed_error (mnemonic : Mnemonic) (passphrase : gostring) (e : error) :
  Validate mnemonic = Return (Some e) ->
  GenerateSeed mnemonic passphrase = Return ([], Some e).
Proof. intros H. unfold_head GenerateSeed. rewrite H. reflexivity. Qed.

Lemma ToEntropy_error (mnemonic : Mnemonic) (e : error) :
  getBinaryStrings mnemonic = Return ([], [], Some e) ->
  ToEntropy mnemonic = Return ([], Some e) /\
  Validate mnemonic = Return (Some e).
Proof.
  intros H. rewrite Validate_ToEntropy. unfold_head ToEntropy.
  rewrite H. split; reflexivity.
Qed.

(** C5: a mnemonic whose number of space-separated words is not 12, 15,
    18, 21 or 24 makes [ToEntropy], [Validate] and [GenerateSeed] fail
    with [ErrWordsNum], whatever the words are. *)
Theorem invalid_words_count (mnemonic : Mnemonic) (passphrase : gostring) :
  ~ In (len (strings.Split (Words mnemonic) chSpace)) [12; 15; 18; 21; 24] ->
  ToEntropy mnemonic = Return ([], Some ErrWordsNum) /\
  Validate mnemonic = Return (Some ErrWordsNum) /\
  GenerateSeed mnemonic passphrase = Return ([], Some ErrWordsNum).
Proof.
  intros Hni.
  assert (Hg : getBinaryStrings mnemonic = Return ([], [], Some ErrWordsNum)).
  { destruct (getBinaryStrings_cases mnemonic)
      as [[_ Hr] | [(Hin & _) | (Hin & _)]];
      [exact Hr | contradiction | contradiction]. }
  destruct (ToEntropy_error mnemonic _ Hg) as [Ht Hv].
  split; [exact Ht |]. split; [exact Hv |].
  apply GenerateSeed_error, Hv.
Qed.

(** C6: a mnemonic with a valid word count and a word that is not in
    the word list makes the decoder, [ToEntropy] and [Validate] fail with
    [ErrInvalidWord]; the failing results carry no bits and no bytes.  The
    loop over the words stops at a missing word with the error alone,
    whatever the buffer holds and whatever words follow. *)
Theorem invalid_word (mnemonic : Mnemonic) :
  let wordsList := strings.Split (Words mnemonic) chSpace in
  In (len wordsList) [12; 15; 18; 21; 24] ->
  (exists word, In word wordsList /\ ~ In word wordsListEn) ->
  getBinaryStrings mnemonic = Return ([], [], Some ErrInvalidWord) /\
  ToEntropy mnemonic = Return ([], Some ErrInvalidWord) /\
  Validate mnemonic = Return (Some ErrInvalidWord) /\
  (forall (before after : list gostring) (word strBuf : gostring),
      ~ In word wordsListEn ->
      getBinaryStrings_loop wordsListEn (before ++ word :: after) strBuf
      = Return (inr ErrInvalidWord)).
Proof.
  intros wordsList Hin (word & Hw & Hni).
  assert (Hg : getBinaryStrings mnemonic = Return ([], [], Some ErrInvalidWord)).
  { destruct (getBinaryStrings_cases mnemonic)
      as [[Hc _] | [(_ & _ & Hr) | (_ & Hall & _)]];
      [contradiction | exact Hr |].
    exfalso. rewrite Forall_forall in Hall.
    exact (Hall word Hw (word_index_absent word Hni)). }
  split; [exact Hg |].
  destruct (ToEntropy_error mnemonic _ Hg) as [Ht Hv].
  split; [exact Ht |]. split; [exact Hv |].
  intros before after w strBuf Hw'.
  destruct (getBinaryStrings_loop_cases (before ++ w :: after) strBuf)
    as [[Hall _] | [_ Hr]]; [| exact Hr].
  exfalso. rewrite Forall_forall in Hall.
  apply (Hall w); [apply in_elt | apply word_index_absent, Hw'].
Qed.

(** The loop leaves at the first word that is not found: the words after
    it do not matter. *)
Lemma getBinaryStrings_loop_first_missing
  (before after : list gostring) (word : gostring) (strBuf : gostring) :
  word_index word = -1 ->
  getBinaryStrings_loop wordsListEn (before ++ word :: after) strBuf
  = getBinaryStrings_loop wordsListEn (before ++ [word]) strBuf.
Proof.
  intros Hw. revert strBuf. induction before as [| w before IH]; intros strBuf.
  - cbn [app getBinaryStrings_loop]. rewrite word_index_spec. cbn [bind].
    rewrite Hw. reflexivity.
  - cbn [app getBinaryStrings_loop]. rewrite word_index_spec. cbn [bind].
    destruct (word_index w =? -1); [reflexivity | apply IH].
Qed.

(** *** The rebuilt bit stream *)

Lemma word_found_range (word : gostring) :
  word_index word <> -1 -> 0 <= word_index word < 2048.
Proof.
  intros H. destruct (word_index_range word) as [He | Hr]; [contradiction |].
  rewrite wordsListEn_len in Hr. exact Hr.
Qed.

(** With 2048 words every index is written with exactly eleven digits. *)
Lemma bit_stream_len (wordsList : list gostring) :
  Forall (fun word => word_index word <> -1) wordsList ->
  len (bit_stream wordsList) = 11 * len wordsList.
Proof.
  induction 1 as [| word rest Hw Hrest IH]; [reflexivity |].
  unfold_head bit_stream. cbn [flat_map]. rewrite len_app, len_cons.
  unfold_head bit_stream in IH. rewrite IH.
  rewrite Sprintf_b_len; [lia | lia |].
  change (2 ^ 11) with 2048. apply word_found_range, Hw.
Qed.

Lemma bit_stream_bin (wordsList : list gostring) :
  Forall (fun word => word_index word <> -1) wordsList ->
  is_bin (bit_stream wordsList).
Proof.
  induction 1 as [| word rest Hw Hrest IH]; [constructor |].
  unfold_head bit_stream. cbn [flat_map]. apply is_bin_app. split.
  - apply Sprintf_b_bin; [lia |]. apply word_found_range in Hw. lia.
  - exact IH.
Qed.

(** The split of a stream of 12, 15, 18, 21 or 24 groups of eleven bits:
    the entropy part has 128, 160, 192, 224 or 256 bits. *)
Lemma split_lengths (n total : Z) :
  In n [12; 15; 18; 21; 24] -> total = 11 * n ->
  Z.quot total 33 = Z.quot n 3 /\
  total - Z.quot total 33 = 32 * Z.quot n 3 /\
  Z.rem (total - Z.quot total 33) 8 = 0 /\
  4 <= Z.quot n 3 <= 8.
Proof.
  intros Hn ->.
  repeat (destruct Hn as [<- | Hn]; [repeat split; reflexivity || lia |]).
  destruct Hn.
Qed.

(** The decoder's results when the count is valid and every word is
    found: a binary entropy part of whole bytes and the checksum part. *)
Lemma getBinaryStrings_parts (mnemonic : Mnemonic) :
  let wordsList := strings.Split (Words mnemonic) chSpace in
  In (len wordsList) [12; 15; 18; 21; 24] ->
  Forall (fun word => word_index word <> -1) wordsList ->
  exists entropyBinStr chksumBinStr,
    getBinaryStrings mnemonic = Return (entropyBinStr, chksumBinStr, None) /\
    entropyBinStr ++ chksumBinStr = bit_stream wordsList /\
    is_bin entropyBinStr /\
    len entropyBinStr = 32 * Z.quot (len wordsList) 3 /\
    len chksumBinStr = Z.quot (len wordsList) 3.
Proof.
  intros wordsList Hin Hall.
  pose proof (bit_stream_len wordsList Hall) as Hlen.
  pose proof (bit_stream_bin wordsList Hall) as Hbin.
  destruct (split_lengths _ _ Hin Hlen) as (Hq & Hs & _ & Hr).
  destruct (getBinaryStrings_cases mnemonic)
    as [[Hni _] | [(_ & Hex & _) | (_ & _ & Hg)]].
  - contradiction.
  - exfalso. rewrite Forall_forall in Hall. apply Exists_exists in Hex.
    destruct Hex as (w & Hw & He). exact (Hall w Hw He).
  - fold wordsList in Hg. eexists. eexists. split; [exact Hg |].
    split; [apply firstn_skipn |]. split; [apply is_bin_firstn, Hbin |].
    unfold len. rewrite length_skipn, length_firstn.
    unfold len in *. lia.
Qed.

(** C10: when the word count is valid and every word is found, the
    entropy part the decoder returns has a length that is a multiple of 8,
    and [binaryStringToBytes] converts it without an error: the error that
    [ToEntropy] and [Validate] ignore is always [nil]. *)
Theorem entropy_part_whole_bytes (mnemonic : Mnemonic) :
  let wordsList := strings.Split (Words mnemonic) chSpace in
  validateWordsNum (len wordsList) = None ->
  (forall word, In word wordsList -> word_index word <> -1) ->
  exists entropyBinStr chksumBinStr entropy,
    getBinaryStrings mnemonic = Return (entropyBinStr, chksumBinStr, None) /\
    Z.rem (len entropyBinStr) 8 = 0 /\
    binaryStringToBytes entropyBinStr = Return (entropy, None) /\
    len entropyBinStr = 8 * len entropy.
Proof.
  intros wordsList Hv Hf.
  assert (Hin : In (len wordsList) [12; 15; 18; 21; 24]).
  { destruct (validateWordsNum_cases (len wordsList)) as [[H _] | [_ H]];
      [exact H | congruence]. }
  assert (Hall : Forall (fun word => word_index word <> -1) wordsList)
    by (apply Forall_forall; exact Hf).
  destruct (getBinaryStrings_parts mnemonic Hin Hall)
    as (e & c & Hg & _ & Hbin & Hle & _).
  assert (Hr : Z.rem (len e) 8 = 0) by (rewrite Hle; lia).
  destruct (binaryStringToBytes_of_bin e Hr Hbin) as (entropy & Hb & Hl).
  exists e, c, entropy. repeat split; assumption.
Qed.

(** [Validate] never panics, and its errors are the three of the
    package. *)
Lemma Validate_cases (mnemonic : Mnemonic) :
  Validate mnemonic = Return None \/
  Validate mnemonic = Return (Some ErrWordsNum) \/
  Validate mnemonic = Return (Some ErrInvalidWord) \/
  Validate mnemonic = Return (Some ErrChecksum).
Proof.
  destruct (getBinaryStrings_cases mnemonic)
    as [[_ Hg] | [(_ & _ & Hg) | (Hin & Hall & _)]].
  - right. left. apply ToEntropy_error, Hg.
  - right. right. left. apply ToEntropy_error, Hg.
  - destruct (getBinaryStrings_parts mnemonic Hin Hall)
      as (e & c & Hg & _ & Hbin & Hle & _).
    destruct (split_lengths _ _ Hin eq_refl) as (_ & _ & _ & Hq).
    assert (Hr : Z.rem (len e) 8 = 0) by (rewrite Hle; lia).
    destruct (binaryStringToBytes_of_bin e Hr Hbin) as (entropy & Hb & Hl).
    destruct (entropyChecksumBinStr_short entropy ltac:(lia)) as [Hc _].
    unfold_head Validate. rewrite Hg. cbn [bind]. rewrite Hb. cbn [bind].
    rewrite Hc. cbn [bind].
    destruct (negb (string_eqb (bit_string (checksum_bits entropy)) c));
      [right; right; right | left]; reflexivity.
Qed.

(** C7: for a mnemonic that passes [Validate] and any passphrase,
    [GenerateSeed] returns the 64 bytes of PBKDF2 with HMAC-SHA512 for the
    password [Words], the salt ["mnemonic"] followed by the passphrase, and
    2048 rounds; with the empty passphrase the salt is the eight bytes of
    ["mnemonic"]. *)
Theorem GenerateSeed_valid (mnemonic : Mnemonic) (passphrase : gostring) :
  Validate mnemonic = Return None ->
  GenerateSeed mnemonic passphrase
    = Return (pbkdf2_Key (Words mnemonic) (str "mnemonic" ++ passphrase)
                2048 64 sha512_New, None) /\
  len (pbkdf2_Key (Words mnemonic) (str "mnemonic" ++ passphrase)
         2048 64 sha512_New) = 64 /\
  GenerateSeed mnemonic []
    = Return (pbkdf2_Key (Words mnemonic) (str "mnemonic")
                2048 64 sha512_New, None) /\
  len (str "mnemonic") = 8.
Proof.
  intros Hv. unfold_head GenerateSeed. rewrite Hv. cbn [bind].
  split; [reflexivity |]. split; [apply pbkdf2_Key_len; lia |].
  split; [| reflexivity].
  unfold seedSaltMod. rewrite app_nil_r. reflexivity.
Qed.

(** C8: [GenerateSeed] returns an error exactly when [Validate] does,
    and then the same one; otherwise it returns a seed.  [Validate] always
    returns, with no error or with [ErrWordsNum], [ErrInvalidWord] or
    [ErrChecksum]. *)
Theorem GenerateSeed_errors (mnemonic : Mnemonic) (passphrase : gostring) :
  (forall e : error,
      (exists seed, GenerateSeed mnemonic passphrase = Return (seed, Some e))
      <-> Validate mnemonic = Return (Some e)) /\
  (forall e : error,
      Validate mnemonic = Return (Some e) ->
      GenerateSeed mnemonic passphrase = Return ([], Some e)) /\
  ((exists seed, GenerateSeed mnemonic passphrase = Return (seed, None))
   <-> Validate mnemonic = Return None) /\
  (Validate mnemonic = Return None \/
   Validate mnemonic = Return (Some ErrWordsNum) \/
   Validate mnemonic = Return (Some ErrInvalidWord) \/
   Validate mnemonic = Return (Some ErrChecksum)).
Proof.
  split; [| split; [| split]].
  - intros e. unfold_head GenerateSeed.
    destruct (Validate mnemonic) as [[e' |] |]; cbn [bind]; split.
    + intros [seed [= _ <-]]. reflexivity.
    + intros [= ->]. eexists. reflexivity.
    + intros [seed [=]].
    + intros [=].
    + intros [seed [=]].
    + intros [=].
  - apply GenerateSeed_error.
  - unfold_head GenerateSeed.
    destruct (Validate mnemonic) as [[e' |] |]; cbn [bind]; split.
    + intros [seed [=]].
    + intros [=].
    + intros _. reflexivity.
    + intros _. eexists. reflexivity.
    + intros [seed [=]].
    + intros [=].
  - apply Validate_cases.
Qed.

(** *** The encoder *)

Lemma entropy_len_cases (entropy : list byte) :
  In (len entropy * 8) [128; 160; 192; 224; 256] ->
  In (len entropy) [16; 20; 24; 28; 32].
Proof.
  intros H. cbn [In] in *. lia.
Qed.

Lemma validateEntropyBitLen_valid (bitLen : Z) :
  In bitLen [128; 160; 192; 224; 256] -> validateEntropyBitLen bitLen = None.
Proof.
  intros H. repeat (destruct H as [<- | H]; [reflexivity |]). destruct H.
Qed.

(** The loop of the encoder reads the groups of eleven characters from
    left to right and appends the word of each. *)
Lemma MnemonicFromEntropy_loop_groups (bin : gostring) :
  is_bin bin ->
  forall (iters : nat) (i : Z) (acc : list gostring),
    0 <= i -> (i + Z.of_nat iters) * 11 <= len bin ->
    MnemonicFromEntropy_loop wordsListEn iters bin i acc
    = Return (acc ++ map chunk_word
                       (groups 11 iters (skipn (Z.to_nat (i * 11)) bin))).
Proof.
  intros Hbin. induction iters as [| iters IH]; intros i acc Hi Hb.
  - cbn [MnemonicFromEntropy_loop groups map]. rewrite app_nil_r. reflexivity.
  - cbn [MnemonicFromEntropy_loop groups map]. unfold wordBitLen.
    rewrite subslice_in_range by lia. cbn [bind].
    replace (Z.to_nat ((i + 1) * 11 - i * 11)) with 11%nat by lia.
    set (chunk := firstn 11 (skipn (Z.to_nat (i * 11)) bin)).
    assert (Hcb : is_bin chunk) by (apply is_bin_firstn, is_bin_skipn, Hbin).
    assert (Hcl : len chunk = 11).
    { unfold chunk, len. rewrite length_firstn, length_skipn.
      unfold len in Hb. lia. }
    rewrite (ParseInt_bin chunk Hcb ltac:(lia)). cbv iota beta.
    pose proof (bin_value_bounds chunk) as Hv. rewrite Hcl in Hv.
    change (2 ^ 11) with 2048 in Hv.
    rewrite (index_in_range wordsListEn (bin_value chunk) [])
      by (rewrite wordsListEn_len; exact Hv).
    cbn [bind]. rewrite IH by lia. rewrite <- app_assoc. cbn [app].
    unfold_head chunk_word. rewrite skipn_skipn.
    replace (11 + Z.to_nat (i * 11))%nat with (Z.to_nat ((i + 1) * 11)) by lia.
    reflexivity.
Qed.

(** The bit string the encoder cuts into words. *)
Lemma mnemonicBinStr_bits (entropy : list byte) :
  bytesToBinaryString entropy ++ bit_string (checksum_bits entropy)
  = bit_string (mnemonic_bits entropy).
Proof.
  unfold_head mnemonic_bits. rewrite bit_string_app, bytesToBinaryString_bits.
  reflexivity.
Qed.

Lemma mnemonic_bits_len (entropy : list byte) :
  Z.quot (len entropy) 4 <= 256 ->
  len (mnemonic_bits entropy) = 8 * len entropy + Z.quot (len entropy) 4.
Proof using Sum256_len.
  intros H. rewrite <- bit_string_len, <- mnemonicBinStr_bits, len_app.
  rewrite bytesToBinaryString_len.
  destruct (entropyChecksumBinStr_short entropy H) as [_ ->]. reflexivity.
Qed.

(** The encoder on an entropy of a standardized length: the words of the
    groups of eleven characters of the bit string, joined by spaces. *)
Lemma MnemonicFromEntropy_words (entropy : list byte) :
  In (len entropy * 8) [128; 160; 192; 224; 256] ->
  let bin := bit_string (mnemonic_bits entropy) in
  MnemonicFromEntropy entropy
  = Return (Some {| Words :=
                      strings.Join
                        (map chunk_word
                           (groups 11 (length (mnemonic_bits entropy) / 11) bin))
                        [chSpace] |}, None).
Proof.
  intros Hin bin. pose proof (entropy_len_cases entropy Hin) as Hn.
  assert (Hq : Z.quot (len entropy) 4 <= 256) by (cbn [In] in Hn; lia).
  unfold_head MnemonicFromEntropy.
  rewrite (validateEntropyBitLen_valid _ Hin).
  destruct (entropyChecksumBinStr_short entropy Hq) as [-> _].
  cbn [bind]. cbv zeta. rewrite mnemonicBinStr_bits. fold bin.
  assert (Hlen : len bin = len (mnemonic_bits entropy))
    by (apply bit_string_len).
  pose proof (mnemonic_bits_len entropy Hq) as Hl.
  assert (Hw : Z.to_nat (Z.quot (len bin) wordBitLen)
               = (length (mnemonic_bits entropy) / 11)%nat).
  { rewrite Hlen. unfold wordBitLen. apply (to_nat_quot _ 11). lia. }
  rewrite Hw.
  rewrite (MnemonicFromEntropy_loop_groups bin (bit_string_bin _)).
  - cbn [bind app]. rewrite Z.mul_0_l. cbn [Z.to_nat skipn]. reflexivity.
  - lia.
  - rewrite (of_nat_div _ 11) by lia. fold (len (mnemonic_bits entropy)).
    rewrite Hlen. change (Z.of_nat 11) with 11.
    pose proof (len_nonneg (mnemonic_bits entropy)). lia.
Qed.

Lemma bits_to_Z_bounds (g : list bool) : 0 <= bits_to_Z g < 2 ^ len g.
Proof.
  rewrite <- bin_value_bit_string, <- bit_string_len. apply bin_value_bounds.
Qed.

Lemma chunk_word_bits (g : list bool) :
  chunk_word (bit_string g) = group_word g.
Proof.
  unfold_head chunk_word. unfold_head group_word.
  rewrite bin_value_bit_string. reflexivity.
Qed.

(** The groups of a stream whose length is a multiple of eleven. *)
Lemma mnemonic_groups (entropy : list byte) :
  In (len entropy * 8) [128; 160; 192; 224; 256] ->
  let bits := mnemonic_bits entropy in
  let n := (length bits / 11)%nat in
  (n * 11 = length bits)%nat /\
  In (Z.of_nat n) [12; 15; 18; 21; 24] /\
  Z.of_nat n = 3 * Z.quot (len entropy) 4 /\
  len entropy = 4 * Z.quot (len entropy) 4.
Proof.
  intros Hin bits n. pose proof (entropy_len_cases entropy Hin) as Hn.
  assert (Hq : Z.quot (len entropy) 4 <= 256) by (cbn [In] in Hn; lia).
  pose proof (mnemonic_bits_len entropy Hq) as Hl. fold bits in Hl.
  pose proof (of_nat_div (length bits) 11 ltac:(lia)) as Hd.
  fold n in Hd. change (Z.of_nat 11) with 11 in Hd.
  cbn [In] in *. unfold len in *.
  repeat split; lia.
Qed.

(** C3: on an entropy of a standardized length [MnemonicFromEntropy]
    returns the sentence of the specification: the entropy bits (eight per
    byte, most significant first) followed by the checksum bits are cut,
    left to right, into consecutive groups of eleven bits; each group,
    read as an unsigned number between 0 and 2047, selects the word at that
    position of the word list; the words are joined in that order by single
    spaces.  The groups cover the whole bit stream. *)
Theorem MnemonicFromEntropy_spec (entropy : list byte) :
  In (len entropy * 8) [128; 160; 192; 224; 256] ->
  let bits := mnemonic_bits entropy in
  let gs := groups 11 (length bits / 11) bits in
  MnemonicFromEntropy entropy
    = Return (Some {| Words := spec_mnemonic entropy |}, None) /\
  concat gs = bits /\
  Forall (fun g => length g = 11%nat /\ 0 <= bits_to_Z g <= 2047) gs.
Proof.
  intros Hin bits gs.
  destruct (mnemonic_groups entropy Hin) as (Hn & _). fold bits in Hn.
  split; [| split].
  - rewrite (MnemonicFromEntropy_words entropy Hin). cbv zeta.
    unfold_head spec_mnemonic. cbv zeta. fold bits.
    unfold bit_string at 1. rewrite groups_map, map_map.
    rewrite Join_join_spaces.
    rewrite (map_ext (fun x => chunk_word (map bit_char x)) group_word
               chunk_word_bits).
    reflexivity.
  - unfold gs. rewrite concat_groups, Hn. apply firstn_all.
  - pose proof (groups_full 11 (length bits / 11) bits ltac:(lia)) as Hf.
    fold gs in Hf. rewrite Forall_forall in *. intros g Hg.
    specialize (Hf g Hg). split; [exact Hf |].
    pose proof (bits_to_Z_bounds g) as Hb. unfold len in Hb. rewrite Hf in Hb.
    change (2 ^ Z.of_nat 11) with 2048 in Hb. lia.
Qed.

Lemma flat_map_map {A B C : Type} (f : B -> list C) (g : A -> B) (l : list A) :
  flat_map f (map g l) = flat_map (fun a => f (g a)) l.
Proof.
  induction l as [| a l IH]; [reflexivity |].
  cbn [map flat_map]. rewrite IH. reflexivity.
Qed.

Lemma flat_map_id_on {A : Type} (h : list A -> list A) (l : list (list A)) :
  (forall c, In c l -> h c = c) -> flat_map h l = concat l.
Proof.
  induction l as [| c l IH]; intros H; [reflexivity |].
  cbn [flat_map concat]. rewrite (H c (or_introl eq_refl)).
  rewrite IH; [reflexivity |]. intros c' Hc'. apply H. right. exact Hc'.
Qed.

(** A group of eleven binary characters selects a word of the list, the
    word is found at the position the group denotes, and writing that
    position with eleven digits gives the group back. *)
Lemma chunk_roundtrip (c : gostring) :
  is_bin c -> length c = 11%nat ->
  In (chunk_word c) wordsListEn /\
  word_index (chunk_word c) = bin_value c /\
  word_index (chunk_word c) <> -1 /\
  fmt.Sprintf_b 11 (word_index (chunk_word c)) = c.
Proof.
  intros Hb Hl. assert (Hlen : len c = 11) by (unfold len; lia).
  pose proof (bin_value_bounds c) as Hv. rewrite Hlen in Hv.
  change (2 ^ 11) with 2048 in Hv.
  assert (Hi : word_index (chunk_word c) = bin_value c).
  { unfold_head chunk_word. apply word_index_nth.
    rewrite wordsListEn_len. exact Hv. }
  split; [| split; [exact Hi | split]].
  - unfold_head chunk_word. apply nth_In.
    pose proof wordsListEn_len as Hw. unfold len in Hw. lia.
  - rewrite Hi. lia.
  - rewrite Hi, <- Hlen. apply Sprintf_b_of_bin; [exact Hb | lia].
Qed.

(** C1: for every entropy whose bit length is 128, 160, 192, 224 or
    256, [MnemonicFromEntropy] returns a mnemonic and [ToEntropy] on that
    mnemonic returns the entropy, byte for byte, and no error. *)
Theorem ToEntropy_MnemonicFromEntropy (entropy : list byte) :
  In (len entropy * 8) [128; 160; 192; 224; 256] ->
  exists mnemonic,
    MnemonicFromEntropy entropy = Return (Some mnemonic, None) /\
    ToEntropy mnemonic = Return (entropy, None).
Proof.
  intros Hin.
  pose proof (MnemonicFromEntropy_words entropy Hin) as Henc. cbv zeta in Henc.
  destruct (mnemonic_groups entropy Hin) as (Hn & Hcount & Hn3 & Hn4).
  pose proof (entropy_len_cases entropy Hin) as Hlen.
  assert (Hq : Z.quot (len entropy) 4 <= 256) by (cbn [In] in Hlen; lia).
  set (bits := mnemonic_bits entropy) in *.
  set (n := (length bits / 11)%nat) in *.
  set (bin := bit_string bits) in *.
  set (cs := groups 11 n bin) in *.
  set (words := map chunk_word cs) in *.
  exists {| Words := strings.Join words [chSpace] |}.
  split; [exact Henc |].
  assert (Hbinlen : length bin = length bits)
    by (unfold bin, bit_string; apply length_map).
  assert (Hcs : forall c, In c cs -> is_bin c /\ length c = 11%nat).
  { intros c Hc. split.
    - pose proof (groups_bin 11 n bin (bit_string_bin bits)) as H.
      rewrite Forall_forall in H. exact (H c Hc).
    - pose proof (groups_full 11 n bin ltac:(lia)) as H.
      rewrite Forall_forall in H. exact (H c Hc). }
  assert (Hlw : length words = n).
  { unfold words, cs. rewrite length_map. apply groups_length. }
  assert (Hwords : strings.Split (strings.Join words [chSpace]) chSpace = words).
  { apply Split_Join.
    - intros He. rewrite He in Hlw. cbn [In length] in *. lia.
    - apply forallb_forall. intros w Hw. unfold words in Hw.
      apply in_map_iff in Hw. destruct Hw as (c & <- & Hc).
      destruct (Hcs c Hc) as [Hb Hl].
      destruct (chunk_roundtrip c Hb Hl) as (Hinl & _).
      pose proof wordsListEn_no_space as Hns.
      rewrite forallb_forall in Hns. exact (Hns _ Hinl). }
  assert (Hcnt : len words = Z.of_nat n) by (unfold len; rewrite Hlw; reflexivity).
  assert (Hfound : Forall (fun word => word_index word <> -1) words).
  { apply Forall_forall. intros w Hw. unfold words in Hw.
    apply in_map_iff in Hw. destruct Hw as (c & <- & Hc).
    destruct (Hcs c Hc) as [Hb Hl].
    apply (chunk_roundtrip c Hb Hl). }
  assert (Hstream : bit_stream words = bin).
  { unfold_head bit_stream. unfold words. rewrite flat_map_map.
    transitivity (concat cs).
    - apply (@flat_map_id_on byte). intros c Hc.
      destruct (Hcs c Hc) as [Hb Hl]. apply (chunk_roundtrip c Hb Hl).
    - unfold cs. rewrite (concat_groups 11 n bin), Hn, <- Hbinlen.
      apply firstn_all. }
  assert (Hbin : bin = bytesToBinaryString entropy
                       ++ bit_string (checksum_bits entropy))
    by (symmetry; apply mnemonicBinStr_bits).
  assert (Hblen : len bin = 33 * Z.quot (len entropy) 4).
  { unfold bin. rewrite bit_string_len. unfold len at 1. lia. }
  pose proof (getBinaryStrings_cases {| Words := strings.Join words [chSpace] |})
    as Hg.
  cbv zeta in Hg. cbn [Words] in Hg. rewrite Hwords, Hcnt, Hstream in Hg.
  destruct Hg as [[Hni _] | [(_ & Hex & _) | (_ & _ & Hg)]].
  - contradiction.
  - exfalso. rewrite Forall_forall in Hfound. apply Exists_exists in Hex.
    destruct Hex as (w & Hw & He). exact (Hfound w Hw He).
  - replace (Z.to_nat (len bin - Z.quot (len bin) 33))
      with (length (bytesToBinaryString entropy)) in Hg.
    2:{ pose proof (bytesToBinaryString_len entropy) as Hel.
        unfold len in *. lia. }
    rewrite Hbin in Hg.
    rewrite firstn_app, firstn_all, Nat.sub_diag, firstn_0, app_nil_r in Hg.
    rewrite skipn_app, skipn_all, Nat.sub_diag, skipn_0, app_nil_l in Hg.
    unfold_head ToEntropy. rewrite Hg. cbn [bind].
    rewrite binaryStringToBytes_bytesToBinaryString. cbn [bind].
    destruct (entropyChecksumBinStr_short entropy Hq) as [-> _]. cbn [bind].
    rewrite string_eqb_refl. reflexivity.
Qed.

(** *** More on the encoder and the decoder *)

(** The encoder's sentence on a standardized entropy: its words, their
    number, where they come from, and what the decoder makes of it. *)
Lemma MnemonicFromEntropy_facts (entropy : list byte) :
  In (len entropy * 8) [128; 160; 192; 224; 256] ->
  exists words,
    MnemonicFromEntropy entropy
      = Return (Some {| Words := strings.Join words [chSpace] |}, None) /\
    strings.Split (strings.Join words [chSpace]) chSpace = words /\
    len words = 3 * Z.quot (len entropy) 4 /\
    (forall w, In w words -> In w wordsListEn) /\
    ToEntropy {| Words := strings.Join words [chSpace] |}
      = Return (entropy, None).
Proof.
  intros Hin.
  pose proof (MnemonicFromEntropy_words entropy Hin) as Henc. cbv zeta in Henc.
  destruct (mnemonic_groups entropy Hin) as (Hn & Hcount & Hn3 & Hn4).
  pose proof (entropy_len_cases entropy Hin) as Hlen.
  assert (Hq : Z.quot (len entropy) 4 <= 256) by (cbn [In] in Hlen; lia).
  set (bits := mnemonic_bits entropy) in *.
  set (n := (length bits / 11)%nat) in *.
  set (bin := bit_string bits) in *.
  set (cs := groups 11 n bin) in *.
  set (words := map chunk_word cs) in *.
  assert (Hbinlen : length bin = length bits)
    by (unfold bin, bit_string; apply length_map).
  assert (Hcs : forall c, In c cs -> is_bin c /\ length c = 11%nat).
  { intros c Hc. split.
    - pose proof (groups_bin 11 n bin (bit_string_bin bits)) as H.
      rewrite Forall_forall in H. exact (H c Hc).
    - pose proof (groups_full 11 n bin ltac:(lia)) as H.
      rewrite Forall_forall in H. exact (H c Hc). }
  assert (Hlw : length words = n).
  { unfold words, cs. rewrite length_map. apply groups_length. }
  assert (Hwords : strings.Split (strings.Join words [chSpace]) chSpace = words).
  { apply Split_Join.
    - intros He. rewrite He in Hlw. cbn [In length] in *. lia.
    - apply forallb_forall. intros w Hw. unfold words in Hw.
      apply in_map_iff in Hw. destruct Hw as (c & <- & Hc).
      destruct (Hcs c Hc) as [Hb Hl].
      destruct (chunk_roundtrip c Hb Hl) as (Hinl & _).
      pose proof wordsListEn_no_space as Hns.
      rewrite forallb_forall in Hns. exact (Hns _ Hinl). }
  assert (Hcnt : len words = Z.of_nat n) by (unfold len; rewrite Hlw; reflexivity).
  assert (Hfound : Forall (fun word => word_index word <> -1) words).
  { apply Forall_forall. intros w Hw. unfold words in Hw.
    apply in_map_iff in Hw. destruct Hw as (c & <- & Hc).
    destruct (Hcs c Hc) as [Hb Hl].
    apply (chunk_roundtrip c Hb Hl). }
  assert (Hstream : bit_stream words = bin).
  { unfold_head bit_stream. unfold words. rewrite flat_map_map.
    transitivity (concat cs).
    - apply (@flat_map_id_on byte). intros c Hc.
      destruct (Hcs c Hc) as [Hb Hl]. apply (chunk_roundtrip c Hb Hl).
    - unfold cs. rewrite (concat_groups 11 n bin), Hn, <- Hbinlen.
      apply firstn_all. }
  assert (Hbin : bin = bytesToBinaryString entropy
                       ++ bit_string (checksum_bits entropy))
    by (symmetry; apply mnemonicBinStr_bits).
  assert (Hblen : len bin = 33 * Z.quot (len entropy) 4).
  { unfold bin. rewrite bit_string_len. unfold len at 1. lia. }
  pose proof (getBinaryStrings_cases {| Words := strings.Join words [chSpace] |})
    as Hg.
  cbv zeta in Hg. cbn [Words] in Hg. rewrite Hwords, Hcnt, Hstream in Hg.
  destruct Hg as [[Hni _] | [(_ & Hex & _) | (_ & _ & Hg)]].
  - contradiction.
  - exfalso. rewrite Forall_forall in Hfound. apply Exists_exists in Hex.
    destruct Hex as (w & Hw & He). exact (Hfound w Hw He).
  - replace (Z.to_nat (len bin - Z.quot (len bin) 33))
      with (length (bytesToBinaryString entropy)) in Hg.
    2:{ pose proof (bytesToBinaryString_len entropy) as Hel.
        unfold len in *. lia. }
    rewrite Hbin in Hg.
    rewrite firstn_app, firstn_all, Nat.sub_diag, firstn_0, app_nil_r in Hg.
    rewrite skipn_app, skipn_all, Nat.sub_diag, skipn_0, app_nil_l in Hg.
    exists words. split; [exact Henc |]. split; [exact Hwords |].
    split; [rewrite Hcnt; exact Hn3 |]. split.
    + intros w Hw. unfold words in Hw. apply in_map_iff in Hw.
      destruct Hw as (c & <- & Hc). destruct (Hcs c Hc) as [Hb Hl].
      apply (chunk_roundtrip c Hb Hl).
    + unfold_head ToEntropy. rewrite Hg. cbn [bind].
      rewrite binaryStringToBytes_bytesToBinaryString. cbn [bind].
      destruct (entropyChecksumBinStr_short entropy Hq) as [-> _]. cbn [bind].
      rewrite string_eqb_refl. reflexivity.
Qed.

Lemma ToEntropy_error_nil (mnemonic : Mnemonic) (x : list byte) (e : error) :
  ToEntropy mnemonic = Return (x, Some e) -> x = [].
Proof.
  unfold_head ToEntropy.
  destruct (getBinaryStrings mnemonic) as [[[eb c] [err |]] |]; cbn [bind];
    [intros [= <- _]; reflexivity | | discriminate].
  destruct (binaryStringToBytes eb) as [[entropy err] |]; cbn [bind];
    [| discriminate].
  destruct (entropyChecksumBinStr entropy) as [chksumComp |]; cbn [bind];
    [| discriminate].
  destruct (negb (string_eqb chksumComp c));
    [intros [= <- _]; reflexivity | discriminate].
Qed.

Lemma word_index_found (word : gostring) :
  word_index word <> -1 ->
  0 <= word_index word < len wordsListEn /\
  nth (Z.to_nat (word_index word)) wordsListEn [] = word.
Proof.
  unfold_head word_index.
  destruct (stringBinarySearch_total wordsListEn word [])
    as (r & -> & [-> | H]); [congruence | intros _; exact H].
Qed.

(** Decoding when the count is valid and every word is found: the parts,
    the bytes of the entropy part, and the result of [ToEntropy], which
    depends on the comparison of the checksums alone. *)
Lemma ToEntropy_found (mnemonic : Mnemonic) :
  let wordsList := strings.Split (Words mnemonic) chSpace in
  In (len wordsList) [12; 15; 18; 21; 24] ->
  Forall (fun word => word_index word <> -1) wordsList ->
  exists entropyBinStr chksumBinStr entropy,
    getBinaryStrings mnemonic = Return (entropyBinStr, chksumBinStr, None) /\
    entropyBinStr ++ chksumBinStr = bit_stream wordsList /\
    binaryStringToBytes entropyBinStr = Return (entropy, None) /\
    bytesToBinaryString entropy = entropyBinStr /\
    len entropy = 4 * Z.quot (len wordsList) 3 /\
    len chksumBinStr = Z.quot (len wordsList) 3 /\
    ToEntropy mnemonic
      = (if string_eqb (bit_string (checksum_bits entropy)) chksumBinStr
         then Return (entropy, None)
         else Return ([], Some ErrChecksum)).
Proof.
  intros wordsList Hin Hall.
  destruct (getBinaryStrings_parts mnemonic Hin Hall)
    as (e & c & Hg & Hec & Hbin & Hle & Hlc).
  fold wordsList in Hec, Hle, Hlc.
  destruct (split_lengths _ _ Hin eq_refl) as (_ & _ & _ & Hq).
  assert (Hr : Z.rem (len e) 8 = 0) by (rewrite Hle; lia).
  destruct (binaryStringToBytes_inverse e Hbin Hr) as (entropy & Hb & Hs).
  assert (Hlen : len entropy = 4 * Z.quot (len wordsList) 3).
  { pose proof (bytesToBinaryString_len entropy) as Hl. rewrite Hs in Hl. lia. }
  destruct (entropyChecksumBinStr_short entropy ltac:(lia)) as [Hc _].
  exists e, c, entropy. repeat (split; [assumption |]).
  unfold_head ToEntropy. rewrite Hg. cbn [bind]. rewrite Hb. cbn [bind].
  rewrite Hc. cbn [bind].
  destruct (string_eqb (bit_string (checksum_bits entropy)) c); reflexivity.
Qed.

Lemma ToEntropy_success_found (mnemonic : Mnemonic) (entropy : list byte) :
  ToEntropy mnemonic = Return (entropy, None) ->
  In (len (strings.Split (Words mnemonic) chSpace)) [12; 15; 18; 21; 24] /\
  Forall (fun word => word_index word <> -1)
    (strings.Split (Words mnemonic) chSpace).
Proof.
  intros H.
  destruct (getBinaryStrings_cases mnemonic)
    as [[_ Hg] | [(_ & _ & Hg) | (Hin & Hall & _)]].
  - apply ToEntropy_error in Hg. destruct Hg as [Hg _]. congruence.
  - apply ToEntropy_error in Hg. destruct Hg as [Hg _]. congruence.
  - split; assumption.
Qed.

(** X5: [Validate] and [ToEntropy] agree: [Validate] returns an error
    exactly when [ToEntropy] returns that error (with no bytes), and [nil]
    exactly when [ToEntropy] returns an entropy; [IsValid] is [true]
    exactly then. *)
Theorem Validate_agrees_with_ToEntropy (mnemonic : Mnemonic) :
  (forall e : error,
      Validate mnemonic = Return (Some e)
      <-> ToEntropy mnemonic = Return ([], Some e)) /\
  (Validate mnemonic = Return None
   <-> exists entropy, ToEntropy mnemonic = Return (entropy, None)) /\
  (IsValid mnemonic = Return true
   <-> exists entropy, ToEntropy mnemonic = Return (entropy, None)).
Proof.
  assert (Hnil : Validate mnemonic = Return None
                 <-> exists entropy, ToEntropy mnemonic = Return (entropy, None)).
  { rewrite Validate_ToEntropy.
    destruct (ToEntropy mnemonic) as [[x [e |]] |]; cbn [bind snd]; split.
    - discriminate.
    - intros [entropy [=]].
    - intros _. exists x. reflexivity.
    - reflexivity.
    - discriminate.
    - intros [entropy [=]]. }
  split; [| split; [exact Hnil |]].
  - intros e. rewrite Validate_ToEntropy.
    destruct (ToEntropy mnemonic) as [[x [e' |]] |] eqn:Ht; cbn [bind snd]; split.
    + intros [= ->]. rewrite (ToEntropy_error_nil mnemonic x e Ht). reflexivity.
    + intros [= _ ->]. reflexivity.
    + discriminate.
    + discriminate.
    + discriminate.
    + discriminate.
  - rewrite <- Hnil. unfold_head IsValid.
    destruct (Validate mnemonic) as [[e |] |]; cbn [bind]; split;
      try discriminate; reflexivity.
Qed.

(** X6: on every mnemonic string the decoding operations return: no
    slice or index of [getBinaryStrings], [ToEntropy], [IsValid] or
    [GenerateSeed] is ever out of range, and [ToEntropy] returns an entropy
    or one of [ErrWordsNum], [ErrInvalidWord], [ErrChecksum], never the
    errors of the binary codec. *)
Theorem decoding_never_panics (mnemonic : Mnemonic) (passphrase : gostring) :
  (exists r, getBinaryStrings mnemonic = Return r) /\
  ((exists entropy, ToEntropy mnemonic = Return (entropy, None)) \/
   ToEntropy mnemonic = Return ([], Some ErrWordsNum) \/
   ToEntropy mnemonic = Return ([], Some ErrInvalidWord) \/
   ToEntropy mnemonic = Return ([], Some ErrChecksum)) /\
  (exists b, IsValid mnemonic = Return b) /\
  (exists r, GenerateSeed mnemonic passphrase = Return r).
Proof.
  split; [| split; [| split]].
  - destruct (getBinaryStrings_cases mnemonic)
      as [[_ ->] | [(_ & _ & ->) | (_ & _ & ->)]]; eexists; reflexivity.
  - destruct (getBinaryStrings_cases mnemonic)
      as [[_ Hg] | [(_ & _ & Hg) | (Hin & Hall & _)]].
    + right. left. apply ToEntropy_error, Hg.
    + right. right. left. apply ToEntropy_error, Hg.
    + destruct (ToEntropy_found mnemonic Hin Hall)
        as (e & c & entropy & _ & _ & _ & _ & _ & _ & ->).
      destruct (string_eqb (bit_string (checksum_bits entropy)) c);
        [left; exists entropy; reflexivity | right; right; right; reflexivity].
  - unfold_head IsValid.
    destruct (Validate_cases mnemonic) as [-> | [-> | [-> | ->]]];
      eexists; reflexivity.
  - unfold_head GenerateSeed.
    destruct (Validate_cases mnemonic) as [-> | [-> | [-> | ->]]];
      eexists; reflexivity.
Qed.

(** X7: when the word count is valid and every word is found, the
    outcome rests on the checksum alone: with [entropy] the bytes of the
    entropy part, [ToEntropy] returns [entropy] when the checksum computed
    from it equals the checksum part of the sentence, and otherwise
    [ToEntropy], [Validate] and [GenerateSeed] fail with [ErrChecksum]. *)
Theorem checksum_decides (mnemonic : Mnemonic) (passphrase : gostring) :
  let wordsList := strings.Split (Words mnemonic) chSpace in
  validateWordsNum (len wordsList) = None ->
  (forall word, In word wordsList -> word_index word <> -1) ->
  exists entropyBinStr chksumBinStr entropy,
    getBinaryStrings mnemonic = Return (entropyBinStr, chksumBinStr, None) /\
    binaryStringToBytes entropyBinStr = Return (entropy, None) /\
    (bit_string (checksum_bits entropy) = chksumBinStr ->
     ToEntropy mnemonic = Return (entropy, None) /\
     Validate mnemonic = Return None) /\
    (bit_string (checksum_bits entropy) <> chksumBinStr ->
     ToEntropy mnemonic = Return ([], Some ErrChecksum) /\
     Validate mnemonic = Return (Some ErrChecksum) /\
     GenerateSeed mnemonic passphrase = Return ([], Some ErrChecksum)).
Proof.
  intros wordsList Hv Hf.
  assert (Hin : In (len wordsList) [12; 15; 18; 21; 24]).
  { destruct (validateWordsNum_cases (len wordsList)) as [[H _] | [_ H]];
      [exact H | congruence]. }
  assert (Hall : Forall (fun word => word_index word <> -1) wordsList)
    by (apply Forall_forall; exact Hf).
  destruct (ToEntropy_found mnemonic Hin Hall)
    as (e & c & entropy & Hg & _ & Hb & _ & _ & _ & Ht).
  exists e, c, entropy. split; [exact Hg |]. split; [exact Hb |]. split.
  - intros Heq. rewrite Heq, string_eqb_refl in Ht.
    split; [exact Ht |]. rewrite Validate_ToEntropy, Ht. reflexivity.
  - intros Hne.
    destruct (string_eqb (bit_string (checksum_bits entropy)) c) eqn:E;
      [apply string_eqb_eq in E; contradiction |].
    assert (Hval : Validate mnemonic = Return (Some ErrChecksum))
      by (rewrite Validate_ToEntropy, Ht; reflexivity).
    split; [exact Ht |]. split; [exact Hval |].
    apply GenerateSeed_error, Hval.
Qed.

(** X8: an entropy that [ToEntropy] returns has the size that goes with
    the number of words: 12, 15, 18, 21 or 24 words give 16, 20, 24, 28 or
    32 bytes, that is [n*11 - n/3] bits for [n] words, the bit length
    [MnemonicFromWordsNum] asks for. *)
Theorem ToEntropy_size (mnemonic : Mnemonic) (entropy : list byte) :
  ToEntropy mnemonic = Return (entropy, None) ->
  let n := len (strings.Split (Words mnemonic) chSpace) in
  In n [12; 15; 18; 21; 24] /\
  len entropy = 4 * Z.quot n 3 /\
  len entropy * 8 = n * 11 - Z.quot n 3 /\
  In (len entropy) [16; 20; 24; 28; 32].
Proof.
  intros Ht n. destruct (ToEntropy_success_found mnemonic entropy Ht) as [Hin Hall].
  destruct (ToEntropy_found mnemonic Hin Hall)
    as (e & c & entropy' & _ & _ & _ & _ & Hlen & _ & Ht').
  rewrite Ht in Ht'.
  destruct (string_eqb (bit_string (checksum_bits entropy')) c);
    [| discriminate]. injection Ht' as ->.
  fold n in Hin, Hlen. split; [exact Hin |]. split; [exact Hlen |].
  cbn [In] in *. lia.
Qed.

(** The sentence of an entropy that [ToEntropy] returns is the sentence
    it was read from. *)
Lemma MnemonicFromEntropy_of_decoded (mnemonic : Mnemonic) (entropy : list byte) :
  ToEntropy mnemonic = Return (entropy, None) ->
  MnemonicFromEntropy entropy = Return (Some mnemonic, None).
Proof.
  intros Ht.
  destruct (ToEntropy_success_found mnemonic entropy Ht) as [Hin Hall].
  destruct (ToEntropy_found mnemonic Hin Hall)
    as (e & c & entropy' & _ & Hec & _ & Hs & Hlen & _ & Ht').
  rewrite Ht in Ht'.
  destruct (string_eqb (bit_string (checksum_bits entropy')) c) eqn:E;
    [| discriminate].
  injection Ht' as <-. apply string_eqb_eq in E.
  set (wordsList := strings.Split (Words mnemonic) chSpace) in *.
  assert (Hvalid : In (len entropy * 8) [128; 160; 192; 224; 256])
    by (cbn [In] in *; lia).
  rewrite (MnemonicFromEntropy_words entropy Hvalid). cbv zeta.
  destruct (mnemonic_groups entropy Hvalid) as (_ & _ & Hn3 & _).
  assert (Hn : (length (mnemonic_bits entropy) / 11)%nat = length wordsList).
  { apply Nat2Z.inj. fold (len wordsList). cbn [In] in Hin. lia. }
  rewrite Hn, <- mnemonicBinStr_bits, Hs, E, Hec.
  assert (Hg11 : Forall (fun word =>
                           length (fmt.Sprintf_b 11 (word_index word)) = 11%nat)
                   wordsList).
  { apply Forall_forall. intros w Hw. rewrite Forall_forall in Hall.
    pose proof (word_found_range w (Hall w Hw)) as Hr.
    pose proof (Sprintf_b_len 11 (word_index w) ltac:(lia) Hr) as Hl.
    unfold len in Hl. lia. }
  pose proof (groups_flat_map
                (fun word => fmt.Sprintf_b 11 (word_index word))
                11 wordsList Hg11) as Hgf.
  unfold_head bit_stream. rewrite Hgf, map_map.
  assert (Hid : map (fun word => chunk_word (fmt.Sprintf_b 11 (word_index word)))
                  wordsList = wordsList).
  { rewrite <- (map_id wordsList) at 2. apply map_ext_in. intros w Hw.
    rewrite Forall_forall in Hall.
    destruct (word_index_found w (Hall w Hw)) as [Hr Hnth].
    unfold_head chunk_word. rewrite Sprintf_b_value by lia. exact Hnth. }
  rewrite Hid. unfold wordsList. rewrite Join_Split.
  destruct mnemonic. reflexivity.
Qed.

(** X9: when [ToEntropy] returns an entropy for a mnemonic,
    [MnemonicFromEntropy] on that entropy returns this very mnemonic, the
    same string: the sentences [ToEntropy] accepts are exactly the ones the
    encoder writes, words of the list separated by single spaces. *)
Theorem MnemonicFromEntropy_ToEntropy (mnemonic : Mnemonic) (entropy : list byte) :
  ToEntropy mnemonic = Return (entropy, None) ->
  MnemonicFromEntropy entropy = Return (Some mnemonic, None).
Proof. apply MnemonicFromEntropy_of_decoded. Qed.

(** X10: [ToEntropy] is injective on the mnemonics it accepts: two
    mnemonics with the same entropy are the same string. *)
Theorem ToEntropy_injective (mnemonic1 mnemonic2 : Mnemonic) (entropy : list byte) :
  ToEntropy mnemonic1 = Return (entropy, None) ->
  ToEntropy mnemonic2 = Return (entropy, None) ->
  mnemonic1 = mnemonic2.
Proof.
  intros H1 H2.
  apply MnemonicFromEntropy_of_decoded in H1, H2.
  rewrite H1 in H2. injection H2 as H2. exact H2.
Qed.

(** X11: the sentence [MnemonicFromEntropy] writes for an entropy of a
    standardized length has three words for every four bytes, each a word
    of the list; it passes [Validate] and [IsValid], and [GenerateSeed]
    returns a seed for it with any passphrase. *)
Theorem MnemonicFromEntropy_valid (entropy : list byte) (passphrase : gostring) :
  In (len entropy * 8) [128; 160; 192; 224; 256] ->
  exists mnemonic,
    MnemonicFromEntropy entropy = Return (Some mnemonic, None) /\
    len (strings.Split (Words mnemonic) chSpace) = 3 * Z.quot (len entropy) 4 /\
    (forall word, In word (strings.Split (Words mnemonic) chSpace) ->
                  In word wordsListEn) /\
    Validate mnemonic = Return None /\
    IsValid mnemonic = Return true /\
    GenerateSeed mnemonic passphrase
      = Return (pbkdf2_Key (Words mnemonic) (seedSaltMod ++ passphrase)
                  seedPbkdf2Round seedPbkdf2KeyLen sha512_New, None).
Proof.
  intros Hin.
  destruct (MnemonicFromEntropy_facts entropy Hin)
    as (words & Henc & Hsplit & Hcnt & Hw & Ht).
  exists {| Words := strings.Join words [chSpace] |}. cbn [Words].
  rewrite Hsplit.
  assert (Hv : Validate {| Words := strings.Join words [chSpace] |} = Return None)
    by (rewrite Validate_ToEntropy, Ht; reflexivity).
  split; [exact Henc |]. split; [exact Hcnt |]. split; [exact Hw |].
  split; [exact Hv |]. split.
  - unfold_head IsValid. rewrite Hv. reflexivity.
  - unfold_head GenerateSeed. rewrite Hv. reflexivity.
Qed.

(** *** The generator *)

Variable GenerateEntropy : Z -> list byte * option error.

Local Abbreviation MnemonicFromWordsNum :=
  (MnemonicFromWordsNum wordsListEn sha256_Sum256 GenerateEntropy).

(** X12: [MnemonicFromWordsNum] rejects a number of words other than
    12, 15, 18, 21 and 24 with [ErrWordsNum]; for those it asks the random
    source for 128, 160, 192, 224 or 256 bits, and when the source returns
    that many bits the result is a mnemonic of that many words which
    decodes to the bytes drawn and passes [Validate]. *)
Theorem MnemonicFromWordsNum_result (wordsNum : Z) :
  (~ In wordsNum [12; 15; 18; 21; 24] ->
   MnemonicFromWordsNum wordsNum = Return (None, Some ErrWordsNum)) /\
  (In wordsNum [12; 15; 18; 21; 24] ->
   let entropyBitLen := wordsNum * 11 - Z.quot wordsNum 3 in
   let entropy := fst (GenerateEntropy entropyBitLen) in
   In entropyBitLen [128; 160; 192; 224; 256] /\
   (len entropy * 8 = entropyBitLen ->
    exists mnemonic,
      MnemonicFromWordsNum wordsNum = Return (Some mnemonic, None) /\
      len (strings.Split (Words mnemonic) chSpace) = wordsNum /\
      ToEntropy mnemonic = Return (entropy, None) /\
      Validate mnemonic = Return None)).
Proof.
  split.
  - intros Hni. unfold_head MnemonicFromWordsNum.
    destruct (validateWordsNum_cases wordsNum) as [[Hin _] | [_ ->]];
      [contradiction | reflexivity].
  - intros Hin entropyBitLen entropy.
    assert (Hbits : In entropyBitLen [128; 160; 192; 224; 256])
      by (subst entropyBitLen; cbn [In] in *; lia).
    split; [exact Hbits |]. intros Hlen.
    assert (Hvalid : In (len entropy * 8) [128; 160; 192; 224; 256])
      by (rewrite Hlen; exact Hbits).
    destruct (MnemonicFromEntropy_facts entropy Hvalid)
      as (words & Henc & Hsplit & Hcnt & _ & Ht).
    exists {| Words := strings.Join words [chSpace] |}. cbn [Words].
    rewrite Hsplit. split; [| split; [| split]].
    + unfold_head MnemonicFromWordsNum.
      rewrite (validateWordsNum_valid wordsNum Hin). cbv zeta.
      fold entropyBitLen. unfold entropy in Henc.
      destruct (GenerateEntropy entropyBitLen) as [bytes err].
      exact Henc.
    + rewrite Hcnt. subst entropyBitLen. cbn [In] in Hin. lia.
    + exact Ht.
    + rewrite Validate_ToEntropy, Ht. reflexivity.
Qed.

End properties.

(** ** The functions on concrete inputs *)

Example bytesToBinaryString_ex :
  bytesToBinaryString (str "A!") = str "0100000100100001".
Proof. reflexivity. Qed.

Example binaryStringToBytes_ex :
  binaryStringToBytes (str "0100000100100001") = Return (str "A!", None).
Proof. reflexivity. Qed.

Example binaryStringToBytes_ex_len :
  binaryStringToBytes (str "0100000") = Return ([], Some ErrBinaryString).
Proof. reflexivity. Qed.

Example binaryStringToBytes_ex_sign :
  binaryStringToBytes (str "-0000001") = Return ([byte_of_Z 255], None).
Proof. reflexivity. Qed.

Example Split_ex :
  strings.Split (str "a  b ") chSpace = [str "a"; []; str "b"; []].
Proof. reflexivity. Qed.

Example Split_empty_ex : strings.Split [] chSpace = [[]].
Proof. reflexivity. Qed.

Lemma demoWordsList_len : len demoWordsList = 2048.
Proof. vm_compute. reflexivity. Qed.

Lemma demoWordsList_sorted : sortedb demoWordsList = true.
Proof. vm_compute. reflexivity. Qed.

Lemma demoWordsList_no_space : forallb no_spaceb demoWordsList = true.
Proof. vm_compute. reflexivity. Qed.

Lemma demoSum256_len (message : list byte) : len (demoSum256 message) = 32.
Proof.
  unfold demoSum256, len. rewrite length_map, length_seq. reflexivity.
Qed.

Lemma demoKey_len (password salt : list byte) (iter keyLen : Z) (h : unit) :
  0 <= keyLen -> len (demoKey password salt iter keyLen h) = keyLen.
Proof.
  intros H. unfold demoKey, len. rewrite length_map, length_seq. lia.
Qed.

Example MnemonicFromEntropy_ex :
  MnemonicFromEntropy demoWordsList demoSum256 zeroEntropy
  = Return (Some demoMnemonic, None).
Proof. vm_compute. reflexivity. Qed.

Example ToEntropy_ex :
  ToEntropy demoWordsList demoSum256 demoMnemonic = Return (zeroEntropy, None).
Proof. vm_compute. reflexivity. Qed.

Example ToEntropy_ex_checksum :
  ToEntropy demoWordsList demoSum256
    {| Words := str "w00000000000 w00000000000 w00000000000 w00000000000 w00000000000 w00000000000 w00000000000 w00000000000 w00000000000 w00000000000 w00000000000 w00000000000" |}
  = Return ([], Some ErrChecksum).
Proof. vm_compute. reflexivity. Qed.

(** ** The theorems at the instance *)

Lemma zeroEntropy_valid : In (len zeroEntropy * 8) [128; 160; 192; 224; 256].
Proof. left. reflexivity. Qed.

Lemma demoMnemonic_count :
  validateWordsNum (len (strings.Split (Words demoMnemonic) chSpace)) = None.
Proof. vm_compute. reflexivity. Qed.

Lemma demoMnemonic_found (word : gostring) :
  In word (strings.Split (Words demoMnemonic) chSpace) ->
  word_index demoWordsList word <> -1.
Proof.
  assert (Hb : forallb (fun w => negb (word_index demoWordsList w =? -1))
                 (strings.Split (Words demoMnemonic) chSpace) = true)
    by (vm_compute; reflexivity).
  intros Hw. rewrite forallb_forall in Hb. specialize (Hb word Hw).
  apply negb_true_iff, Z.eqb_neq in Hb. exact Hb.
Qed.

Lemma not_In_existsb (w : gostring) (l : list gostring) :
  existsb (string_eqb w) l = false -> ~ In w l.
Proof.
  intros H Hin.
  assert (Ht : existsb (string_eqb w) l = true).
  { apply existsb_exists. exists w. split; [exact Hin |].
    apply string_eqb_refl. }
  congruence.
Qed.

Lemma shortMnemonic_count :
  ~ In (len (strings.Split (Words shortMnemonic) chSpace)) [12; 15; 18; 21; 24].
Proof.
  vm_compute. intros H.
  repeat (destruct H as [H | H]; [discriminate H |]). exact H.
Qed.

Lemma unknownWordMnemonic_count :
  In (len (strings.Split (Words unknownWordMnemonic) chSpace))
    [12; 15; 18; 21; 24].
Proof. left. vm_compute. reflexivity. Qed.

Lemma unknownWordMnemonic_word :
  exists word,
    In word (strings.Split (Words unknownWordMnemonic) chSpace) /\
    ~ In word demoWordsList.
Proof.
  exists (str "zebra"). split.
  - vm_compute. do 11 right. left. reflexivity.
  - apply not_In_existsb. vm_compute. reflexivity.
Qed.

Lemma demoMnemonic_valid :
  Validate demoWordsList demoSum256 demoMnemonic = Return None.
Proof. vm_compute. reflexivity. Qed.

(** C1 at sixteen zero bytes. *)
Lemma ToEntropy_MnemonicFromEntropy_witness :
  In (len zeroEntropy * 8) [128; 160; 192; 224; 256] /\
  exists mnemonic,
    MnemonicFromEntropy demoWordsList demoSum256 zeroEntropy
      = Return (Some mnemonic, None) /\
    ToEntropy demoWordsList demoSum256 mnemonic = Return (zeroEntropy, None).
Proof.
  split; [exact zeroEntropy_valid |].
  exact (ToEntropy_MnemonicFromEntropy demoWordsList demoSum256
           demoWordsList_len demoWordsList_sorted demoWordsList_no_space
           demoSum256_len zeroEntropy zeroEntropy_valid).
Defined.

(** C2 at sixteen zero bytes. *)
Lemma entropyChecksumBinStr_first_bits_witness :
  In (len zeroEntropy * 8) [128; 160; 192; 224; 256] /\
  entropyChecksumBinStr demoSum256 zeroEntropy
    = Return (bit_string (checksum_bits demoSum256 zeroEntropy)) /\
  len (bit_string (checksum_bits demoSum256 zeroEntropy))
    = Z.quot (len zeroEntropy) 4.
Proof.
  split; [exact zeroEntropy_valid |].
  exact (entropyChecksumBinStr_first_bits demoSum256 demoSum256_len
           zeroEntropy zeroEntropy_valid).
Defined.

(** The bound of the slice expression [hashStr[:chksumBitLen]]: on 1028
    bytes, which no caller passes, the function asks for the first 257
    characters of a string of 256 and panics, whatever 32-byte digest is
    used. *)
Lemma entropyChecksumBinStr_panics_on_long_input :
  len longInput = 1028 /\
  forall Sum256 : list byte -> list byte,
    (forall message, len (Sum256 message) = 32) ->
    entropyChecksumBinStr Sum256 longInput = Panic.
Proof.
  split; [reflexivity |]. intros Sum256 Hlen.
  apply (entropyChecksumBinStr_long Sum256 Hlen).
  apply Z.ltb_lt. reflexivity.
Qed.

(** C3 at sixteen zero bytes. *)
Lemma MnemonicFromEntropy_spec_witness :
  In (len zeroEntropy * 8) [128; 160; 192; 224; 256] /\
  MnemonicFromEntropy demoWordsList demoSum256 zeroEntropy
    = Return (Some {| Words := spec_mnemonic demoWordsList demoSum256
                                 zeroEntropy |}, None).
Proof.
  split; [exact zeroEntropy_valid |].
  exact (proj1 (MnemonicFromEntropy_spec demoWordsList demoSum256
                  demoWordsList_len demoSum256_len zeroEntropy
                  zeroEntropy_valid)).
Defined.

(** C4 at the sentence of sixteen zero bytes. *)
Lemma getBinaryStrings_split_witness :
  validateWordsNum (len (strings.Split (Words demoMnemonic) chSpace)) = None /\
  exists entropyPart chksumPart,
    getBinaryStrings demoWordsList demoMnemonic
      = Return (entropyPart, chksumPart, None) /\
    entropyPart ++ chksumPart
      = bit_stream demoWordsList (strings.Split (Words demoMnemonic) chSpace) /\
    len chksumPart
      = Z.quot (len (bit_stream demoWordsList
                       (strings.Split (Words demoMnemonic) chSpace))) 33 /\
    len entropyPart
      = len (bit_stream demoWordsList
               (strings.Split (Words demoMnemonic) chSpace))
        - Z.quot (len (bit_stream demoWordsList
                         (strings.Split (Words demoMnemonic) chSpace))) 33.
Proof.
  split; [exact demoMnemonic_count |].
  exact (getBinaryStrings_split demoWordsList demoMnemonic
           demoMnemonic_count demoMnemonic_found).
Defined.

(** C5 at a sentence of two words. *)
Lemma invalid_words_count_witness :
  ~ In (len (strings.Split (Words shortMnemonic) chSpace)) [12; 15; 18; 21; 24]
  /\ ToEntropy demoWordsList demoSum256 shortMnemonic
     = Return ([], Some ErrWordsNum)
  /\ Validate demoWordsList demoSum256 shortMnemonic
     = Return (Some ErrWordsNum)
  /\ GenerateSeed demoWordsList demoSum256 unit tt demoKey shortMnemonic []
     = Return ([], Some ErrWordsNum).
Proof.
  split; [exact shortMnemonic_count |].
  exact (invalid_words_count demoWordsList demoSum256 unit tt demoKey
           shortMnemonic [] shortMnemonic_count).
Defined.

(** C6 at a sentence of twelve words, one of them unknown. *)
Lemma invalid_word_witness :
  In (len (strings.Split (Words unknownWordMnemonic) chSpace))
    [12; 15; 18; 21; 24] /\
  getBinaryStrings demoWordsList unknownWordMnemonic
    = Return ([], [], Some ErrInvalidWord) /\
  ToEntropy demoWordsList demoSum256 unknownWordMnemonic
    = Return ([], Some ErrInvalidWord) /\
  Validate demoWordsList demoSum256 unknownWordMnemonic
    = Return (Some ErrInvalidWord).
Proof.
  split; [exact unknownWordMnemonic_count |].
  pose proof (invalid_word demoWordsList demoSum256 unknownWordMnemonic
                unknownWordMnemonic_count unknownWordMnemonic_word)
    as (Hg & Ht & Hv & _).
  split; [exact Hg |]. split; [exact Ht | exact Hv].
Defined.

(** C7 at the sentence of sixteen zero bytes and a passphrase. *)
Lemma GenerateSeed_valid_witness :
  Validate demoWordsList demoSum256 demoMnemonic = Return None /\
  GenerateSeed demoWordsList demoSum256 unit tt demoKey demoMnemonic
    (str "TREZOR")
  = Return (demoKey (Words demoMnemonic) (str "mnemonicTREZOR") 2048 64 tt,
            None) /\
  len (demoKey (Words demoMnemonic) (str "mnemonicTREZOR") 2048 64 tt) = 64.
Proof.
  split; [exact demoMnemonic_valid |].
  pose proof (GenerateSeed_valid demoWordsList demoSum256 unit tt demoKey
                demoKey_len demoMnemonic (str "TREZOR") demoMnemonic_valid)
    as (Hseed & Hlen & _).
  split; [exact Hseed | exact Hlen].
Defined.

(** C8 at the sentence of two words. *)
Lemma GenerateSeed_errors_witness :
  (exists seed,
      GenerateSeed demoWordsList demoSum256 unit tt demoKey shortMnemonic []
      = Return (seed, Some ErrWordsNum))
  <-> Validate demoWordsList demoSum256 shortMnemonic
      = Return (Some ErrWordsNum).
Proof.
  exact (proj1 (GenerateSeed_errors demoWordsList demoSum256 unit tt demoKey
                  demoWordsList_len demoSum256_len shortMnemonic [])
           ErrWordsNum).
Defined.

(** C10 at the sentence of sixteen zero bytes. *)
Lemma entropy_part_whole_bytes_witness :
  validateWordsNum (len (strings.Split (Words demoMnemonic) chSpace)) = None /\
  exists entropyBinStr chksumBinStr entropy,
    getBinaryStrings demoWordsList demoMnemonic
      = Return (entropyBinStr, chksumBinStr, None) /\
    Z.rem (len entropyBinStr) 8 = 0 /\
    binaryStringToBytes entropyBinStr = Return (entropy, None) /\
    len entropyBinStr = 8 * len entropy.
Proof.
  split; [exact demoMnemonic_count |].
  exact (entropy_part_whole_bytes demoWordsList demoWordsList_len demoMnemonic
           demoMnemonic_count demoMnemonic_found).
Defined.

(** ** The further properties at the instance *)

Lemma demoBinStr_bin : is_bin demoBinStr.
Proof. apply is_binb_spec. reflexivity. Qed.

Lemma demoBinStr_len : Z.rem (len demoBinStr) 8 = 0.
Proof. reflexivity. Qed.

(** X2 at a string of sixteen characters. *)
Lemma binary_codec_inverse_witness :
  is_bin demoBinStr /\ Z.rem (len demoBinStr) 8 = 0 /\
  exists bytes,
    binaryStringToBytes demoBinStr = Return (bytes, None) /\
    bytesToBinaryString bytes = demoBinStr.
Proof.
  split; [exact demoBinStr_bin |]. split; [exact demoBinStr_len |].
  exact (binary_codec_inverse demoBinStr demoBinStr_bin demoBinStr_len).
Defined.

(** X4 at the synthetic word list. *)
Lemma stringBinarySearch_complete_witness :
  sortedb demoWordsList = true /\
  (~ In (str "zebra") demoWordsList
   <-> stringBinarySearch demoWordsList (str "zebra") = Return (-1)).
Proof.
  split; [exact demoWordsList_sorted |].
  exact (proj2 (proj2 (stringBinarySearch_complete demoWordsList (str "zebra")
                         demoWordsList_sorted))).
Defined.

(** X6 at a sentence of two words. *)
Lemma decoding_never_panics_witness :
  exists r, getBinaryStrings demoWordsList shortMnemonic = Return r.
Proof.
  exact (proj1 (decoding_never_panics demoWordsList demoSum256 unit tt demoKey
                  demoWordsList_len demoSum256_len shortMnemonic [])).
Defined.

(** X7 at the sentence of sixteen zero bytes. *)
Lemma checksum_decides_witness :
  validateWordsNum (len (strings.Split (Words demoMnemonic) chSpace)) = None /\
  exists entropyBinStr chksumBinStr entropy,
    getBinaryStrings demoWordsList demoMnemonic
      = Return (entropyBinStr, chksumBinStr, None) /\
    binaryStringToBytes entropyBinStr = Return (entropy, None).
Proof.
  split; [exact demoMnemonic_count |].
  pose proof (checksum_decides demoWordsList demoSum256 unit tt demoKey
                demoWordsList_len demoSum256_len demoMnemonic []
                demoMnemonic_count demoMnemonic_found)
    as (e & c & entropy & Hg & Hb & _).
  exists e, c, entropy. split; [exact Hg | exact Hb].
Defined.

Lemma demoMnemonic_decoded :
  ToEntropy demoWordsList demoSum256 demoMnemonic = Return (zeroEntropy, None).
Proof. vm_compute. reflexivity. Qed.

(** X8 at the sentence of sixteen zero bytes. *)
Lemma ToEntropy_size_witness :
  ToEntropy demoWordsList demoSum256 demoMnemonic = Return (zeroEntropy, None) /\
  In (len (strings.Split (Words demoMnemonic) chSpace)) [12; 15; 18; 21; 24] /\
  In (len zeroEntropy) [16; 20; 24; 28; 32].
Proof.
  split; [exact demoMnemonic_decoded |].
  pose proof (ToEntropy_size demoWordsList demoSum256 demoWordsList_len
                demoSum256_len demoMnemonic zeroEntropy demoMnemonic_decoded)
    as (Hn & _ & _ & Hl).
  split; [exact Hn | exact Hl].
Defined.

(** X9 at the sentence of sixteen zero bytes. *)
Lemma MnemonicFromEntropy_ToEntropy_witness :
  ToEntropy demoWordsList demoSum256 demoMnemonic = Return (zeroEntropy, None) /\
  MnemonicFromEntropy demoWordsList demoSum256 zeroEntropy
    = Return (Some demoMnemonic, None).
Proof.
  split; [exact demoMnemonic_decoded |].
  exact (MnemonicFromEntropy_ToEntropy demoWordsList demoSum256
           demoWordsList_len demoSum256_len demoMnemonic zeroEntropy
           demoMnemonic_decoded).
Defined.

(** X10 at the sentence of sixteen zero bytes, read twice. *)
Lemma ToEntropy_injective_witness :
  ToEntropy demoWordsList demoSum256 demoMnemonic = Return (zeroEntropy, None) /\
  demoMnemonic = demoMnemonic.
Proof.
  split; [exact demoMnemonic_decoded |].
  exact (ToEntropy_injective demoWordsList demoSum256 demoWordsList_len
           demoSum256_len demoMnemonic demoMnemonic zeroEntropy
           demoMnemonic_decoded demoMnemonic_decoded).
Defined.

(** X11 at sixteen zero bytes. *)
Lemma MnemonicFromEntropy_valid_witness :
  In (len zeroEntropy * 8) [128; 160; 192; 224; 256] /\
  exists mnemonic,
    MnemonicFromEntropy demoWordsList demoSum256 zeroEntropy
      = Return (Some mnemonic, None) /\
    Validate demoWordsList demoSum256 mnemonic = Return None.
Proof.
  split; [exact zeroEntropy_valid |].
  pose proof (MnemonicFromEntropy_valid demoWordsList demoSum256 unit tt demoKey
                demoWordsList_len demoWordsList_sorted demoWordsList_no_space
                demoSum256_len zeroEntropy [] zeroEntropy_valid)
    as (m & Henc & _ & _ & Hv & _).
  exists m. split; [exact Henc | exact Hv].
Defined.

Lemma twelve_valid : In 12 [12; 15; 18; 21; 24].
Proof. left. reflexivity. Qed.

Lemma demoGenerateEntropy_bits :
  len (fst (demoGenerateEntropy (12 * 11 - Z.quot 12 3))) * 8
  = 12 * 11 - Z.quot 12 3.
Proof. reflexivity. Qed.

(** X12 at twelve words and a source of zero bytes. *)
Lemma MnemonicFromWordsNum_result_witness :
  In 12 [12; 15; 18; 21; 24] /\
  len (fst (demoGenerateEntropy (12 * 11 - Z.quot 12 3))) * 8
  = 12 * 11 - Z.quot 12 3 /\
  exists mnemonic,
    MnemonicFromWordsNum demoWordsList demoSum256 demoGenerateEntropy 12
      = Return (Some mnemonic, None) /\
    len (strings.Split (Words mnemonic) chSpace) = 12 /\
    Validate demoWordsList demoSum256 mnemonic = Return None.
Proof.
  split; [exact twelve_valid |]. split; [exact demoGenerateEntropy_bits |].
  destruct (proj2 (proj2 (MnemonicFromWordsNum_result demoWordsList demoSum256
                            demoWordsList_len demoWordsList_sorted
                            demoWordsList_no_space demoSum256_len
                            demoGenerateEntropy 12)
                     twelve_valid)
              demoGenerateEntropy_bits)
    as (m & Hm & Hc & _ & Hv).
  exists m. split; [exact Hm |]. split; [exact Hc | exact Hv].
Defined.

Example MnemonicFromWordsNum_ex :
  MnemonicFromWordsNum demoWordsList demoSum256 demoGenerateEntropy 12
  = Return (Some demoMnemonic, None).
Proof. vm_compute. reflexivity. Qed.

Example MnemonicFromWordsNum_ex_count :
  MnemonicFromWordsNum demoWordsList demoSum256 demoGenerateEntropy 13
  = Return (None, Some ErrWordsNum).
Proof. reflexivity. Qed.
